(** * ksmbd crypto context pool (crypto_ctx.c)

    A shallow embedding of the pool of reusable crypto contexts of
    [crypto_ctx.c]: the global [ctx_list], the blocking find-or-create
    loop [cifsd_find_crypto_ctx], [cifsd_release_crypto_ctx], the two
    per-family lookups [____crypto_shash_ctx_find] and
    [____crypto_aead_ctx_find], and the life cycle functions
    [cifsd_crypto_create] and [cifsd_crypto_destroy].

    Conventions of the embedding.
    - Pointers are integers; [NULL] is 0 and the kernel's error pointers
      are the negative values recognised by [IS_ERR].
    - The kernel objects live in two finite maps: the contexts obtained
      from [ctx_alloc] and the [shash_desc] blocks obtained from
      [kzalloc].
    - Every code section that runs under [ctx_lock], and every call of a
      helper that works on an exclusively owned context, is one atomic
      step of the calling thread; a thread is a program point.  The
      interleaving of the threads is a list of actions.
    - What the kernel answers (the allocator, the crypto provider) is an
      input of the step that makes the call; the calls that are visible
      outside of the file are recorded as events.
    - [avail_ctx] is a C [int] that the code compares with the unsigned
      [num_online_cpus ()]; the embedding computes and compares in [Z].
      The two readings agree on the counters in range
      ([counter_in_range]: from 0 to below [INT_MAX], see
      [counter_in_range_exact]); the properties of single steps that
      depend on a comparison are stated for such counters.  In every
      reachable state the counter is between 0 and the bound plus one
      ([reachable_owned], [counter_at_most_bound_plus_one]), hence in
      range for every bound the kernel can report
      ([reachable_counter_in_range]).
    - The file is embedded as compiled for kernels from 5.4 on, where the
      block cipher family ([blk_desc], [____crypto_blk_ctx_find]) is
      compiled out. *)

From Stdlib Require Import ZArith Lia List String.
From stdpp Require Import base option list gmap.

Local Open Scope Z_scope.

(** ** Kernel pointers *)

Definition NULL : Z := 0.

(** [MAX_ERRNO] and [IS_ERR] of linux/err.h. *)
Definition MAX_ERRNO : Z := 4095.

Definition IS_ERR (p : Z) : bool := (- MAX_ERRNO <=? p) && (p <? 0).

(** ** Data model *)

(** The enumerations of crypto_ctx.h, which the file includes; their
    values are not part of the file and stay abstract. *)
Record crypto_ids := {
  CRYPTO_SHASH_HMACMD5 : Z;
  CRYPTO_SHASH_HMACSHA256 : Z;
  CRYPTO_SHASH_CMACAES : Z;
  CRYPTO_SHASH_SHA512 : Z;
  CRYPTO_SHASH_MD4 : Z;
  CRYPTO_SHASH_MD5 : Z;
  CRYPTO_SHASH_MAX : Z;
  CRYPTO_AEAD_AES128_GCM : Z;
  CRYPTO_AEAD_AES128_CCM : Z;
  CRYPTO_AEAD_MAX : Z
}.

(** A keyed-hash handle: the [shash_desc] block obtained from [kzalloc]
    and the provider transform stored in its [tfm] member.  The block is
    owned by the slot that points to it, so a slot holds it by value;
    an empty slot is the C [NULL]. *)
Record shash_desc := mk_shash {
  shash_addr : Z;
  shash_tfm : Z
}.

(** [struct cifsd_crypto_ctx]: two arrays of handles, [desc] with
    [CRYPTO_SHASH_MAX] entries and [ccmaes] with [CRYPTO_AEAD_MAX]
    entries (a [crypto_aead] pointer each).  The [list] member is the
    membership in [idle_ctx]. *)
Record cifsd_crypto_ctx := mk_ctx {
  desc : list (option shash_desc);
  ccmaes : list (option Z)
}.

(** [struct crypto_ctx_list].  [ctx_lock] is the atomicity of the steps
    and [ctx_wait] the enabling condition of the waiting step.
    [idle_ctx] is the kernel list from its head: [list_add] puts an entry
    in front and [idle_ctx.next] is the first entry. *)
Record crypto_ctx_list := mk_ctx_list {
  avail_ctx : Z;
  idle_ctx : list Z
}.

(** The kernel state the file works on: the static [ctx_list] and the
    live contexts by address. *)
Record kstate := mk_kstate {
  ctx_list : crypto_ctx_list;
  ctxs : gmap Z cifsd_crypto_ctx
}.

Definition avail (s : kstate) : Z := avail_ctx (ctx_list s).
Definition idle (s : kstate) : list Z := idle_ctx (ctx_list s).

Definition set_avail (n : Z) (s : kstate) : kstate :=
  mk_kstate (mk_ctx_list n (idle s)) (ctxs s).
Definition set_idle (l : list Z) (s : kstate) : kstate :=
  mk_kstate (mk_ctx_list (avail s) l) (ctxs s).
Definition set_ctxs (m : gmap Z cifsd_crypto_ctx) (s : kstate) : kstate :=
  mk_kstate (ctx_list s) m.

(** Reading and writing [a[i]] for a C [int] index; a read outside of the
    array has no defined result. *)
Definition array_get {A : Type} (a : list A) (i : Z) : option A :=
  if i <? 0 then None else a !! Z.to_nat i.
Definition array_set {A : Type} (a : list A) (i : Z) (x : A) : list A :=
  <[Z.to_nat i := x]> a.

(** ** The environment *)

(** What the kernel answers to the calls one step makes: [cifsd_alloc],
    [crypto_alloc_shash] or [crypto_alloc_aead], and [kzalloc]. *)
Record reply := mk_reply {
  ctx_alloc_ret : Z;
  crypto_alloc_ret : Z;
  kzalloc_ret : Z
}.

(** The allocators answer [NULL] or the address of a block that is not
    live; the provider answers an error pointer or a transform. *)
Definition reply_ok (e : reply) (s : kstate) : bool :=
  ((ctx_alloc_ret e =? NULL)
   || ((0 <? ctx_alloc_ret e) && bool_decide (ctxs s !! ctx_alloc_ret e = None)))
  && (IS_ERR (crypto_alloc_ret e) || (0 <? crypto_alloc_ret e))
  && (0 <=? kzalloc_ret e).

(** The calls that leave the file. *)
Inductive event :=
  | EvCtxAlloc (ret : Z)                      (* cifsd_alloc in ctx_alloc *)
  | EvCtxFree (ctx : Z)                       (* cifsd_free in ctx_free *)
  | EvWakeUp                                  (* wake_up (&ctx_list.ctx_wait) *)
  | EvCryptoAllocShash (name : string) (ret : Z)
  | EvCryptoAllocAead (name : string) (ret : Z)
  | EvCryptoFreeShash (tfm : Z)
  | EvCryptoFreeAead (tfm : Z)
  | EvKfree (p : Z)
  | EvAllocShashDesc (id : Z) (ret : option shash_desc) (* alloc_shash_desc (id) returned *)
  | EvAllocAead (id : Z) (ret : option Z).              (* alloc_aead (id) returned *)

(** What one step of a thread does. *)
Inductive result (A : Type) :=
  | Next (a : A)     (* the step is taken *)
  | Blocked          (* the thread sleeps in wait_event *)
  | Returned         (* the call has returned *)
  | Fault.           (* the step has no defined behaviour in C *)
Arguments Next {A} a.
Arguments Blocked {A}.
Arguments Returned {A}.
Arguments Fault {A}.

(** ** The functions of crypto_ctx.c *)

Section CryptoCtx.

(** The enumerations of crypto_ctx.h and the value that
    [num_online_cpus ()] reads, the target concurrency bound. *)
Variable E : crypto_ids.
Variable num_online_cpus : Z.

(** [free_aead]: a [NULL] handle is skipped. *)
Definition free_aead (aead : option Z) : list event :=
  match aead with
  | Some tfm => [EvCryptoFreeAead tfm]
  | None => []
  end.

(** [free_shash]: frees the transform, then the block. *)
Definition free_shash (shash : option shash_desc) : list event :=
  match shash with
  | Some d => [EvCryptoFreeShash (shash_tfm d); EvKfree (shash_addr d)]
  | None => []
  end.

(** The [switch] of [alloc_aead]; no case leaves [tfm] at [NULL]. *)
Definition aead_name (id : Z) : option string :=
  if id =? CRYPTO_AEAD_AES128_GCM E then Some "gcm(aes)"%string
  else if id =? CRYPTO_AEAD_AES128_CCM E then Some "ccm(aes)"%string
  else None.

(** [alloc_aead]: the handle, [None] for the C [NULL]. *)
Definition alloc_aead (id : Z) (e : reply) : option Z * list event :=
  let '(tfm, evs) :=
    match aead_name id with
    | Some n => (crypto_alloc_ret e, [EvCryptoAllocAead n (crypto_alloc_ret e)])
    | None => (NULL, [])
    end in
  if IS_ERR tfm then (None, evs)
  else if tfm =? NULL then (None, evs)
  else (Some tfm, evs).

(** The [switch] of [alloc_shash_desc]. *)
Definition shash_name (id : Z) : option string :=
  if id =? CRYPTO_SHASH_HMACMD5 E then Some "hmac(md5)"%string
  else if id =? CRYPTO_SHASH_HMACSHA256 E then Some "hmac(sha256)"%string
  else if id =? CRYPTO_SHASH_CMACAES E then Some "cmac(aes)"%string
  else if id =? CRYPTO_SHASH_SHA512 E then Some "sha512"%string
  else if id =? CRYPTO_SHASH_MD4 E then Some "md4"%string
  else if id =? CRYPTO_SHASH_MD5 E then Some "md5"%string
  else None.

(** [alloc_shash_desc].  With [tfm] left at [NULL] the code goes on to
    [crypto_shash_descsize (tfm)], which reads through the pointer: the
    embedding has no result there. *)
Definition alloc_shash_desc (id : Z) (e : reply)
  : option (option shash_desc * list event) :=
  let '(tfm, evs) :=
    match shash_name id with
    | Some n => (crypto_alloc_ret e, [EvCryptoAllocShash n (crypto_alloc_ret e)])
    | None => (NULL, [])
    end in
  if IS_ERR tfm then Some (None, evs)
  else if tfm =? NULL then None
  else
    let shash := kzalloc_ret e in
    if shash =? NULL then Some (None, evs ++ [EvCryptoFreeShash tfm])
    else Some (Some (mk_shash shash tfm), evs).

(** Modelled from the spec: [cifsd_alloc] of buffer_pool.h is not in the
    file; a context is "created empty by the Context Pool", so the block
    it hands out has every slot of both arrays at [NULL]. *)
Definition cifsd_alloc_ctx : cifsd_crypto_ctx :=
  mk_ctx (replicate (Z.to_nat (CRYPTO_SHASH_MAX E)) None)
         (replicate (Z.to_nat (CRYPTO_AEAD_MAX E)) None).

(** [ctx_alloc]: [NULL] or the address of a new context. *)
Definition ctx_alloc (e : reply) (s : kstate) : Z * kstate * list event :=
  let ctx := ctx_alloc_ret e in
  if ctx =? NULL then (NULL, s, [EvCtxAlloc NULL])
  else (ctx, set_ctxs (<[ctx := cifsd_alloc_ctx]> (ctxs s)) s, [EvCtxAlloc ctx]).

(** [ctx_free]: the two loops over the slots, then [cifsd_free].  Freeing
    an address that is not a live context has no defined result. *)
Definition ctx_free (ctx : Z) (s : kstate) : option (kstate * list event) :=
  match ctxs s !! ctx with
  | None => None
  | Some cx =>
      Some (set_ctxs (delete ctx (ctxs s)) s,
            flat_map free_shash (take (Z.to_nat (CRYPTO_SHASH_MAX E)) (desc cx))
            ++ flat_map free_aead (take (Z.to_nat (CRYPTO_AEAD_MAX E)) (ccmaes cx))
            ++ [EvCtxFree ctx])
  end.

(** *** cifsd_find_crypto_ctx *)

(** The program points of [cifsd_find_crypto_ctx]. *)
Inductive find_pc :=
  | FindLock            (* top of the loop, before spin_lock *)
  | FindWait            (* in one of the two wait_event calls *)
  | FindAlloc           (* counter incremented, about to call ctx_alloc *)
  | FindUndo            (* ctx_alloc failed, before the decrement *)
  | FindRet (ctx : Z).  (* returned ctx *)

Definition cifsd_find_crypto_ctx (e : reply) (s : kstate) (pc : find_pc)
  : result (kstate * find_pc * list event) :=
  match pc with
  | FindLock =>
      match idle s with
      | ctx :: rest => Next (set_idle rest s, FindRet ctx, [])
      | [] =>
          if avail s >? num_online_cpus then Next (s, FindWait, [])
          else Next (set_avail (avail s + 1) s, FindAlloc, [])
      end
  | FindWait =>
      match idle s with
      | [] => Blocked
      | _ :: _ => Next (s, FindLock, [])
      end
  | FindAlloc =>
      let '(ctx, s', evs) := ctx_alloc e s in
      if ctx =? NULL then Next (s', FindUndo, evs)
      else Next (s', FindRet ctx, evs)
  | FindUndo => Next (set_avail (avail s - 1) s, FindWait, [])
  | FindRet _ => Returned
  end.

(** *** cifsd_release_crypto_ctx *)

Inductive release_pc :=
  | RelEntry (ctx : Z)  (* called with ctx *)
  | RelWake             (* ctx is in idle_ctx, before wake_up *)
  | RelFree (ctx : Z)   (* counter decremented, before ctx_free *)
  | RelRet.             (* returned *)

Definition cifsd_release_crypto_ctx (s : kstate) (pc : release_pc)
  : result (kstate * release_pc * list event) :=
  match pc with
  | RelEntry ctx =>
      if ctx =? NULL then Next (s, RelRet, [])
      else if avail s <=? num_online_cpus
      then Next (set_idle (ctx :: idle s) s, RelWake, [])
      else Next (set_avail (avail s - 1) s, RelFree ctx, [])
  | RelWake => Next (s, RelRet, [EvWakeUp])
  | RelFree ctx =>
      match ctx_free ctx s with
      | Some (s', evs) => Next (s', RelRet, evs)
      | None => Fault
      end
  | RelRet => Returned
  end.

(** *** ____crypto_shash_ctx_find and ____crypto_aead_ctx_find *)

(** The program points of the two lookups: the test of [id], the call of
    [cifsd_find_crypto_ctx], the call of [cifsd_release_crypto_ctx] on
    the failure path, and the return.  At [CfFind (FindRet ctx)] the
    find call has returned [ctx] and the slot is looked at next. *)
Inductive ctx_find_pc :=
  | CfEntry
  | CfFind (k : find_pc)
  | CfRelease (k : release_pc)
  | CfRet (ctx : Z).

Definition in_find (r : result (kstate * find_pc * list event))
  : result (kstate * ctx_find_pc * list event) :=
  match r with
  | Next (s, k, evs) => Next (s, CfFind k, evs)
  | Blocked => Blocked
  | Returned => Returned
  | Fault => Fault
  end.

Definition in_release (r : result (kstate * release_pc * list event))
  : result (kstate * ctx_find_pc * list event) :=
  match r with
  | Next (s, k, evs) => Next (s, CfRelease k, evs)
  | Blocked => Blocked
  | Returned => Returned
  | Fault => Fault
  end.

(** The slot part of [____crypto_shash_ctx_find], from [if
    (ctx->desc[id])] to the call of the release. *)
Definition shash_slot (id : Z) (e : reply) (s : kstate) (ctx : Z)
  : result (kstate * ctx_find_pc * list event) :=
  match ctxs s !! ctx with
  | None => Fault
  | Some cx =>
      match array_get (desc cx) id with
      | None => Fault
      | Some (Some _) => Next (s, CfRet ctx, [])
      | Some None =>
          match alloc_shash_desc id e with
          | None => Fault
          | Some (h, evs) =>
              let cx' := mk_ctx (array_set (desc cx) id h) (ccmaes cx) in
              let s' := set_ctxs (<[ctx := cx']> (ctxs s)) s in
              let evs' := evs ++ [EvAllocShashDesc id h] in
              match h with
              | Some _ => Next (s', CfRet ctx, evs')
              | None => Next (s', CfRelease (RelEntry ctx), evs')
              end
          end
      end
  end.

Definition ____crypto_shash_ctx_find (id : Z) (e : reply) (s : kstate)
    (pc : ctx_find_pc) : result (kstate * ctx_find_pc * list event) :=
  match pc with
  | CfEntry =>
      if id >=? CRYPTO_SHASH_MAX E then Next (s, CfRet NULL, [])
      else Next (s, CfFind FindLock, [])
  | CfFind (FindRet ctx) => shash_slot id e s ctx
  | CfFind k => in_find (cifsd_find_crypto_ctx e s k)
  | CfRelease RelRet => Next (s, CfRet NULL, [])
  | CfRelease k => in_release (cifsd_release_crypto_ctx s k)
  | CfRet _ => Returned
  end.

(** The slot part of [____crypto_aead_ctx_find]. *)
Definition aead_slot (id : Z) (e : reply) (s : kstate) (ctx : Z)
  : result (kstate * ctx_find_pc * list event) :=
  match ctxs s !! ctx with
  | None => Fault
  | Some cx =>
      match array_get (ccmaes cx) id with
      | None => Fault
      | Some (Some _) => Next (s, CfRet ctx, [])
      | Some None =>
          let '(h, evs) := alloc_aead id e in
          let cx' := mk_ctx (desc cx) (array_set (ccmaes cx) id h) in
          let s' := set_ctxs (<[ctx := cx']> (ctxs s)) s in
          let evs' := evs ++ [EvAllocAead id h] in
          match h with
          | Some _ => Next (s', CfRet ctx, evs')
          | None => Next (s', CfRelease (RelEntry ctx), evs')
          end
      end
  end.

Definition ____crypto_aead_ctx_find (id : Z) (e : reply) (s : kstate)
    (pc : ctx_find_pc) : result (kstate * ctx_find_pc * list event) :=
  match pc with
  | CfEntry =>
      if id >=? CRYPTO_AEAD_MAX E then Next (s, CfRet NULL, [])
      else Next (s, CfFind FindLock, [])
  | CfFind (FindRet ctx) => aead_slot id e s ctx
  | CfFind k => in_find (cifsd_find_crypto_ctx e s k)
  | CfRelease RelRet => Next (s, CfRet NULL, [])
  | CfRelease k => in_release (cifsd_release_crypto_ctx s k)
  | CfRet _ => Returned
  end.

(** The exported lookups. *)
Definition cifsd_crypto_ctx_find_hmacmd5 :=
  ____crypto_shash_ctx_find (CRYPTO_SHASH_HMACMD5 E).
Definition cifsd_crypto_ctx_find_hmacsha256 :=
  ____crypto_shash_ctx_find (CRYPTO_SHASH_HMACSHA256 E).
Definition cifsd_crypto_ctx_find_cmacaes :=
  ____crypto_shash_ctx_find (CRYPTO_SHASH_CMACAES E).
Definition cifsd_crypto_ctx_find_sha512 :=
  ____crypto_shash_ctx_find (CRYPTO_SHASH_SHA512 E).
Definition cifsd_crypto_ctx_find_md4 :=
  ____crypto_shash_ctx_find (CRYPTO_SHASH_MD4 E).
Definition cifsd_crypto_ctx_find_md5 :=
  ____crypto_shash_ctx_find (CRYPTO_SHASH_MD5 E).
Definition cifsd_crypto_ctx_find_gcm :=
  ____crypto_aead_ctx_find (CRYPTO_AEAD_AES128_GCM E).
Definition cifsd_crypto_ctx_find_ccm :=
  ____crypto_aead_ctx_find (CRYPTO_AEAD_AES128_CCM E).

(** *** cifsd_crypto_create and cifsd_crypto_destroy *)

(** [ENOMEM] of errno-base.h. *)
Definition ENOMEM : Z := 12.

(** [cifsd_crypto_create]: the return value, the state and the calls. *)
Definition cifsd_crypto_create (e : reply) (s : kstate)
  : Z * kstate * list event :=
  let s0 := mk_kstate (mk_ctx_list 1 []) (ctxs s) in
  let '(ctx, s1, evs) := ctx_alloc e s0 in
  if ctx =? NULL then (- ENOMEM, s1, evs)
  else (0, set_idle (ctx :: idle s1) s1, evs).

(** The loop of [cifsd_crypto_destroy]; [l] is the idle list of [s].
    Each round unlinks the first entry and frees it. *)
Fixpoint destroy_loop (l : list Z) (s : kstate)
  : option (kstate * list event) :=
  match l with
  | [] => Some (s, [])
  | ctx :: rest =>
      match ctx_free ctx (set_idle rest s) with
      | None => None
      | Some (s1, evs1) =>
          match destroy_loop rest s1 with
          | None => None
          | Some (s2, evs2) => Some (s2, evs1 ++ evs2)
          end
      end
  end.

Definition cifsd_crypto_destroy (s : kstate) : option (kstate * list event) :=
  destroy_loop (idle s) s.

(** ** Threads *)

(** A thread is inside one call of the file. *)
Inductive task :=
  | TFind (k : find_pc)
  | TRelease (k : release_pc)
  | TShash (id : Z) (k : ctx_find_pc)
  | TAead (id : Z) (k : ctx_find_pc).

Definition task_step (e : reply) (s : kstate) (t : task)
  : result (kstate * task * list event) :=
  match t with
  | TFind k =>
      match cifsd_find_crypto_ctx e s k with
      | Next (s', k', evs) => Next (s', TFind k', evs)
      | Blocked => Blocked | Returned => Returned | Fault => Fault
      end
  | TRelease k =>
      match cifsd_release_crypto_ctx s k with
      | Next (s', k', evs) => Next (s', TRelease k', evs)
      | Blocked => Blocked | Returned => Returned | Fault => Fault
      end
  | TShash id k =>
      match ____crypto_shash_ctx_find id e s k with
      | Next (s', k', evs) => Next (s', TShash id k', evs)
      | Blocked => Blocked | Returned => Returned | Fault => Fault
      end
  | TAead id k =>
      match ____crypto_aead_ctx_find id e s k with
      | Next (s', k', evs) => Next (s', TAead id k', evs)
      | Blocked => Blocked | Returned => Returned | Fault => Fault
      end
  end.

(** The context a call has handed to its caller, once it has returned
    one. *)
Definition task_ret (t : task) : option Z :=
  match t with
  | TFind (FindRet ctx) => Some ctx
  | TShash _ (CfRet ctx) | TAead _ (CfRet ctx) =>
      if ctx =? NULL then None else Some ctx
  | _ => None
  end.

(** The kernel state, the contexts the callers hold ([out]), the threads
    and the calls made so far. *)
Record system := mk_system {
  kern : kstate;
  out : list Z;
  tasks : list task;
  trace : list event
}.

(** What happens next: a thread enters a call, or thread [i] takes its
    next step with the kernel's answers [e].  A caller releases [NULL] or
    a context it holds. *)
Inductive action :=
  | CallFind
  | CallRelease (ctx : Z)
  | CallShash (id : Z)
  | CallAead (id : Z)
  | Run (i : nat) (e : reply).

Fixpoint take_out (ctx : Z) (l : list Z) : option (list Z) :=
  match l with
  | [] => None
  | c :: rest =>
      if c =? ctx then Some rest
      else match take_out ctx rest with
           | Some rest' => Some (c :: rest')
           | None => None
           end
  end.

Definition spawn (t : task) (sy : system) : system :=
  mk_system (kern sy) (out sy) (tasks sy ++ [t]) (trace sy).

Definition sys_step (a : action) (sy : system) : option system :=
  match a with
  | CallFind => Some (spawn (TFind FindLock) sy)
  | CallShash id => Some (spawn (TShash id CfEntry) sy)
  | CallAead id => Some (spawn (TAead id CfEntry) sy)
  | CallRelease ctx =>
      if ctx =? NULL then Some (spawn (TRelease (RelEntry NULL)) sy)
      else match take_out ctx (out sy) with
           | Some o =>
               Some (mk_system (kern sy) o
                       (tasks sy ++ [TRelease (RelEntry ctx)]) (trace sy))
           | None => None
           end
  | Run i e =>
      if reply_ok e (kern sy) then
        match tasks sy !! i with
        | None => None
        | Some t =>
            match task_step e (kern sy) t with
            | Next (s', t', evs) =>
                Some (mk_system s'
                        (match task_ret t' with
                         | Some ctx => ctx :: out sy
                         | None => out sy
                         end)
                        (<[i := t']> (tasks sy))
                        (trace sy ++ evs))
            | _ => None
            end
        end
      else None
  end.

Fixpoint run (acts : list action) (sy : system) : option system :=
  match acts with
  | [] => Some sy
  | a :: rest =>
      match sys_step a sy with
      | Some sy' => run rest sy'
      | None => None
      end
  end.

(** The state before [cifsd_crypto_create]: the zeroed static
    [ctx_list] and no context. *)
Definition boot : kstate := mk_kstate (mk_ctx_list 0 []) ∅.

(** The system after a [cifsd_crypto_create] that returned 0. *)
Definition init (e : reply) : option system :=
  if reply_ok e boot then
    let '(ret, s, evs) := cifsd_crypto_create e boot in
    if ret =? 0 then Some (mk_system s [] [] evs) else None
  else None.

Definition reachable (sy : system) : Prop :=
  ∃ e acts sy0, init e = Some sy0 ∧ run acts sy0 = Some sy.

End CryptoCtx.

(** The two families of handles and what the lookups share. *)
Inductive family := Shash | Aead.

Definition family_max (E : crypto_ids) (f : family) : Z :=
  match f with
  | Shash => CRYPTO_SHASH_MAX E
  | Aead => CRYPTO_AEAD_MAX E
  end.

Definition family_find (E : crypto_ids) (ncpus : Z) (f : family)
  : Z → reply → kstate → ctx_find_pc → result (kstate * ctx_find_pc * list event) :=
  match f with
  | Shash => ____crypto_shash_ctx_find E ncpus
  | Aead => ____crypto_aead_ctx_find E ncpus
  end.

(** A handle of either family. *)
Inductive handle :=
  | HShash (d : shash_desc)
  | HAead (tfm : Z).

(** Slot [id] of the family in the context at [ctx]: [Some None] is an
    empty slot, [None] is no slot at all (no live context there, or an
    index outside of the array). *)
Definition slot (f : family) (s : kstate) (ctx id : Z) : option (option handle) :=
  match ctxs s !! ctx with
  | None => None
  | Some cx =>
      match f with
      | Shash => option_map (option_map HShash) (array_get (desc cx) id)
      | Aead => option_map (option_map HAead) (array_get (ccmaes cx) id)
      end
  end.

(** What the Factory of the family answers for [id] with the kernel
    answers [e]: [Some (Some h)] is the handle [h], [Some None] is
    "unavailable" (the C [NULL]), [None] is no defined result. *)
Definition factory_result (E : crypto_ids) (f : family) (id : Z) (e : reply)
  : option (option handle) :=
  match f with
  | Shash => option_map (λ r, option_map HShash (fst r)) (alloc_shash_desc E id e)
  | Aead => Some (option_map HAead (fst (alloc_aead E id e)))
  end.

(** The calls of [alloc_shash_desc] and [alloc_aead] among the events. *)
Definition is_factory_call (ev : event) : bool :=
  match ev with
  | EvAllocShashDesc _ _ | EvAllocAead _ _ => true
  | _ => false
  end.

Definition factory_calls (evs : list event) : nat :=
  length (filter (λ ev, is_factory_call ev = true) evs).

(** The contexts handed to [cifsd_free], in the order of the calls. *)
Definition ctx_frees (evs : list event) : list Z :=
  omap (λ ev, match ev with EvCtxFree ctx => Some ctx | _ => None end) evs.

(** The idle set is a list in memory: no context is linked twice and
    every entry is a live context. *)
Definition idle_wf (s : kstate) : Prop :=
  NoDup (idle s) ∧ ∀ ctx, ctx ∈ idle s → is_Some (ctxs s !! ctx).

(** The context that the call of [cifsd_find_crypto_ctx] inside a task
    has returned, while the task is at that point. *)
Definition find_returned (t : task) : option Z :=
  match t with
  | TFind (FindRet ctx)
  | TShash _ (CfFind (FindRet ctx))
  | TAead _ (CfFind (FindRet ctx)) => Some ctx
  | _ => None
  end.

(** The task has incremented the counter and is constructing a context
    (or is about to take the increment back). *)
Definition creating (t : task) : bool :=
  match t with
  | TFind FindAlloc | TShash _ (CfFind FindAlloc) | TAead _ (CfFind FindAlloc) => true
  | _ => false
  end.

(** No entry of the idle set is [NULL], and no call of
    [cifsd_find_crypto_ctx] has returned [NULL]. *)
Definition sys_nonnull (sy : system) : Prop :=
  Forall (λ c, c ≠ NULL) (idle (kern sy))
  ∧ Forall (λ t, ∀ c, find_returned t = Some c → c ≠ NULL) (tasks sy).

(** *** Ownership *)

(** The context a call of [cifsd_find_crypto_ctx] has in hand. *)
Definition got (k : find_pc) : list Z :=
  match k with
  | FindRet ctx => [ctx]
  | _ => []
  end.

(** The unit of [avail_ctx] that a call of [cifsd_find_crypto_ctx] has
    reserved and not yet turned into a context. *)
Definition find_reserved (k : find_pc) : nat :=
  match k with
  | FindAlloc | FindUndo => 1
  | _ => 0
  end.

(** The context a call of [cifsd_release_crypto_ctx] has in hand. *)
Definition rel_holds (k : release_pc) : list Z :=
  match k with
  | RelEntry ctx => if ctx =? NULL then [] else [ctx]
  | RelFree ctx => [ctx]
  | _ => []
  end.

(** Whether that context still counts in [avail_ctx]. *)
Definition rel_counted (k : release_pc) : nat :=
  match k with
  | RelEntry ctx => if ctx =? NULL then 0 else 1
  | _ => 0
  end.

(** The contexts a task owns: not idle, and not with a caller. *)
Definition holds (t : task) : list Z :=
  match t with
  | TFind _ => []
  | TRelease k => rel_holds k
  | TShash _ (CfFind k) | TAead _ (CfFind k) => got k
  | TShash _ (CfRelease k) | TAead _ (CfRelease k) => rel_holds k
  | _ => []
  end.

(** The units of [avail_ctx] a task stands for. *)
Definition counted (t : task) : nat :=
  match t with
  | TFind k => find_reserved k
  | TRelease k => rel_counted k
  | TShash _ (CfFind k) | TAead _ (CfFind k) => find_reserved k + length (got k)
  | TShash _ (CfRelease k) | TAead _ (CfRelease k) => rel_counted k
  | _ => 0
  end.

(** The context a task hands to its caller on its return. *)
Definition handed (t : task) : list Z :=
  match task_ret t with
  | Some ctx => [ctx]
  | None => []
  end.

Definition occ (c : Z) (l : list Z) : nat := count_occ Z.eq_dec l c.
Arguments occ : simpl never.

Definition live (s : kstate) (c : Z) : nat :=
  match ctxs s !! c with
  | Some _ => 1
  | None => 0
  end.

(** Every live context has exactly one owner (the idle set, a caller or
    a task) and nothing else is owned; the counter is the number of
    contexts idle, with callers or with tasks that have not yet taken
    them off the counter, plus the reservations. *)
Definition sys_owned (sy : system) : Prop :=
  (∀ c, (occ c (idle (kern sy)) + occ c (out sy)
         + sum_list_with (λ t, occ c (holds t)) (tasks sy))%nat
        = live (kern sy) c)
  ∧ avail (kern sy)
    = Z.of_nat (length (idle (kern sy)) + length (out sy)
                + sum_list_with counted (tasks sy)).

(** The task of a lookup at the program point [k]. *)
Definition lookup_task (f : family) (id : Z) (k : ctx_find_pc) : task :=
  match f with
  | Shash => TShash id k
  | Aead => TAead id k
  end.

(** The contexts in the hands of the tasks, and all owned contexts. *)
Definition in_tasks (sy : system) : list Z := concat (map holds (tasks sy)).

Definition owners (sy : system) : list Z :=
  idle (kern sy) ++ out sy ++ in_tasks sy.

(** One task running on its own: it takes one step for each of the
    kernel's answers in [es], with no step of another task in between. *)
Fixpoint task_run (E : crypto_ids) (ncpus : Z) (es : list reply) (s : kstate)
    (t : task) : result (kstate * task * list event) :=
  match es with
  | [] => Next (s, t, [])
  | e :: es' =>
      match task_step E ncpus e s t with
      | Next (s1, t1, evs1) =>
          match task_run E ncpus es' s1 t1 with
          | Next (s2, t2, evs2) => Next (s2, t2, evs1 ++ evs2)
          | Blocked => Blocked
          | Returned => Returned
          | Fault => Fault
          end
      | Blocked => Blocked
      | Returned => Returned
      | Fault => Fault
      end
  end.

(** *** Provider transforms *)

(** A provider call that handed out a transform, and one that took a
    transform back. *)
Definition provider_gave (ev : event) : nat :=
  match ev with
  | EvCryptoAllocShash _ r | EvCryptoAllocAead _ r => if IS_ERR r then 0 else 1
  | _ => 0
  end.

Definition provider_took (ev : event) : nat :=
  match ev with
  | EvCryptoFreeShash _ | EvCryptoFreeAead _ => 1
  | _ => 0
  end.

Definition transforms_given (evs : list event) : nat := sum_list_with provider_gave evs.
Definition transforms_freed (evs : list event) : nat := sum_list_with provider_took evs.

(** The populated entries of a slot array. *)
Definition filled {A : Type} (l : list (option A)) : nat :=
  sum_list_with (λ o, match o with Some _ => 1%nat | None => 0%nat end) l.

(** The handles that [ctx_free] would find in a context, and the handles
    in all live contexts. *)
Definition ctx_handles (E : crypto_ids) (cx : cifsd_crypto_ctx) : nat :=
  (filled (take (Z.to_nat (CRYPTO_SHASH_MAX E)) (desc cx))
   + filled (take (Z.to_nat (CRYPTO_AEAD_MAX E)) (ccmaes cx)))%nat.

Definition cached_handles (E : crypto_ids) (s : kstate) : nat :=
  map_fold (λ _ cx n, (ctx_handles E cx + n)%nat) 0%nat (ctxs s).

(** The arrays of every live context have the lengths of their
    declarations. *)
Definition ctx_sized (E : crypto_ids) (cx : cifsd_crypto_ctx) : Prop :=
  length (desc cx) = Z.to_nat (CRYPTO_SHASH_MAX E)
  ∧ length (ccmaes cx) = Z.to_nat (CRYPTO_AEAD_MAX E).

Definition ctxs_sized (E : crypto_ids) (s : kstate) : Prop :=
  map_Forall (λ _ cx, ctx_sized E cx) (ctxs s).

(** The provider's answer is an error pointer or a transform, never
    [NULL]. *)
Definition provider_ok (e : reply) : Prop :=
  IS_ERR (crypto_alloc_ret e) = true ∨ 0 < crypto_alloc_ret e.

(** Every transform the provider gave is either freed or in a slot of a
    live context. *)
Definition sys_balanced (E : crypto_ids) (sy : system) : Prop :=
  ctxs_sized E (kern sy)
  ∧ transforms_given (trace sy)
    = (transforms_freed (trace sy) + cached_handles E (kern sy))%nat.

(** A lookup that is past its first test has an identifier below the
    bound of its family. *)
Definition task_entered (E : crypto_ids) (t : task) : Prop :=
  match t with
  | TShash id (CfFind _ | CfRelease _) => id < CRYPTO_SHASH_MAX E
  | TAead id (CfFind _ | CfRelease _) => id < CRYPTO_AEAD_MAX E
  | _ => True
  end.

(** The identifier of a lookup is one that the code can index its array
    with and that its Factory has a case for. *)
Definition task_valid_id (E : crypto_ids) (t : task) : Prop :=
  match t with
  | TShash id _ => 0 <= id ∧ is_Some (shash_name E id)
  | TAead id _ => 0 <= id
  | _ => True
  end.

(** *** The range of the counter *)

(** [INT_MAX] of the kernel's 32-bit [int], and the unsigned value a C
    comparison with [num_online_cpus ()] converts an [int] to. *)
Definition INT_MAX : Z := 2147483647.

Definition to_unsigned (x : Z) : Z := x mod 2 ^ 32.

(** The values of [avail_ctx] on which the embedding is the C code to the
    letter: not negative, where the conversion to unsigned is the
    identity and the comparisons in [Z] are the unsigned ones, and below
    [INT_MAX], where the increment does not wrap. *)
Definition counter_in_range (s : kstate) : Prop := 0 <= avail s < INT_MAX.

(** *** What a destruction hands back *)

(** The transforms handed to [crypto_free_shash] and to
    [crypto_free_aead] and the blocks handed to [kfree], in the order of
    the calls. *)
Definition shash_frees (evs : list event) : list Z :=
  omap (λ ev, match ev with EvCryptoFreeShash tfm => Some tfm | _ => None end) evs.

Definition aead_frees (evs : list event) : list Z :=
  omap (λ ev, match ev with EvCryptoFreeAead tfm => Some tfm | _ => None end) evs.

Definition kfrees (evs : list event) : list Z :=
  omap (λ ev, match ev with EvKfree p => Some p | _ => None end) evs.

(** The handles in the slots of a context, in the order of the slots. *)
Definition shash_handles (E : crypto_ids) (cx : cifsd_crypto_ctx) : list shash_desc :=
  omap id (take (Z.to_nat (CRYPTO_SHASH_MAX E)) (desc cx)).

Definition aead_handles (E : crypto_ids) (cx : cifsd_crypto_ctx) : list Z :=
  omap id (take (Z.to_nat (CRYPTO_AEAD_MAX E)) (ccmaes cx)).

(** The live contexts at the addresses [l], in the order of [l]. *)
Definition contexts_at (s : kstate) (l : list Z) : list cifsd_crypto_ctx :=
  omap (λ c, ctxs s !! c) l.

(** The calls that destroy the context [cx] at [ctx], in their order:
    for every keyed-hash handle its transform to [crypto_free_shash] and
    then its block to [kfree], then every cipher transform to
    [crypto_free_aead], then the context to [cifsd_free]. *)
Definition handed_back (E : crypto_ids) (ctx : Z) (cx : cifsd_crypto_ctx) : list event :=
  flat_map (λ d, [EvCryptoFreeShash (shash_tfm d); EvKfree (shash_addr d)])
    (shash_handles E cx)
  ++ map EvCryptoFreeAead (aead_handles E cx)
  ++ [EvCtxFree ctx].

(** ** Sample values *)

(** An assignment of the enumerations, with the families numbered from 0
    and from 16. *)
Definition sample_ids : crypto_ids :=
  Build_crypto_ids 0 1 2 3 4 5 6 16 17 18.

(** The kernel answers: [ctx_alloc] gives [ctx], the provider [tfm] and
    [kzalloc] the block [blk]. *)
Definition answers (ctx tfm blk : Z) : reply := mk_reply ctx tfm blk.

(** A pool with the context 100 idle and the counter at 1. *)
Definition sample_pool : kstate :=
  mk_kstate (mk_ctx_list 1 [100]) {[ 100 := cifsd_alloc_ctx sample_ids ]}.

(** The same pool with its context handed out. *)
Definition sample_drained : kstate :=
  mk_kstate (mk_ctx_list 1 []) {[ 100 := cifsd_alloc_ctx sample_ids ]}.

(** A pool over its bound of 1: the contexts 100 and 200 are out. *)
Definition sample_over : kstate :=
  mk_kstate (mk_ctx_list 2 [])
    {[ 100 := cifsd_alloc_ctx sample_ids; 200 := cifsd_alloc_ctx sample_ids ]}.

(** Answers of a step that makes no call, or whose calls fail: no
    memory, and a provider that has the algorithm. *)
Definition no_memory : reply := answers NULL 1 NULL.

(** A provider that does not have the algorithm ([-ENOENT]). *)
Definition no_algorithm : reply := answers NULL (-2) NULL.

(** [cifsd_crypto_create] obtained the context 100. *)
Definition seeded : reply := answers 100 1 NULL.

(** Two callers acquire one after the other: the first takes the seed
    context, the second finds the idle set empty and the counter at the
    bound of 1, and grows. *)
Definition growth_schedule : list action :=
  [CallFind; Run 0 no_memory; CallFind; Run 1 no_memory].

(** One lookup of SHA-512 (identifier 3) that runs to its return while
    the provider does not have the algorithm. *)
Definition failed_lookup_schedule : list action :=
  [CallShash 3; Run 0 no_memory; Run 0 no_memory; Run 0 no_algorithm;
   Run 0 no_memory; Run 0 no_memory; Run 0 no_memory].

(** A lookup of SHA-512 that returns the seed context with a new
    handle; then an acquire that grows the pool by the context 200; then
    a release of 200 that has found the counter over the bound and is
    about to free it. *)
Definition busy_schedule : list action :=
  [CallShash 3; Run 0 no_memory; Run 0 no_memory; Run 0 (answers NULL 7 300);
   CallFind; Run 1 no_memory; Run 1 (answers 200 1 NULL);
   CallRelease 200; Run 2 no_memory].

(** The state after [busy_schedule], with the bound at 1. *)
Definition sample_system : system :=
  match init sample_ids seeded with
  | Some sy0 =>
      match run sample_ids 1 busy_schedule sy0 with
      | Some sy => sy
      | None => sy0
      end
  | None => mk_system boot [] [] []
  end.

(** A context with two handles: SHA-512 (identifier 3) in the block 300
    with the transform 7, and GCM (identifier 16) with the transform 9. *)
Definition sample_ctx : cifsd_crypto_ctx :=
  mk_ctx (<[3%nat := Some (mk_shash 300 7)]> (replicate 6 None))
         (<[16%nat := Some 9]> (replicate 18 None)).

(** A pool within its bound of 1 with that context idle at 100. *)
Definition sample_cached : kstate :=
  mk_kstate (mk_ctx_list 1 [100]) {[ 100 := sample_ctx ]}.

(** A pool over its bound of 1: that context idle at 100, and the empty
    context 200 with a caller. *)
Definition sample_cached_over : kstate :=
  mk_kstate (mk_ctx_list 2 [100])
    {[ 100 := sample_ctx; 200 := cifsd_alloc_ctx sample_ids ]}.

(** The same pool with both contexts with callers. *)
Definition sample_cached_out : kstate :=
  mk_kstate (mk_ctx_list 2 [])
    {[ 100 := sample_ctx; 200 := cifsd_alloc_ctx sample_ids ]}.

(** A lookup of SHA-512 that returns the seed context with a new handle,
    and the release of that context, which pools it. *)
Definition pooled_schedule : list action :=
  [CallShash 3; Run 0 no_memory; Run 0 no_memory; Run 0 (answers NULL 7 300);
   CallRelease 100; Run 1 no_memory; Run 1 no_memory].

(** The state after [pooled_schedule], with the bound at 1. *)
Definition pooled_system : system :=
  match init sample_ids seeded with
  | Some sy0 =>
      match run sample_ids 1 pooled_schedule sy0 with
      | Some sy => sy
      | None => sy0
      end
  | None => mk_system boot [] [] []
  end.

(** ** Properties *)

Section Properties.

Variable E : crypto_ids.
Variable ncpus : Z.

(** C7: an acquire that finds the idle set non-empty unlinks its first
    member and returns exactly that member; the counter and the live
    contexts are unchanged, no context is constructed (no call is made at
    all), and the call has returned. *)
Theorem find_takes_idle_member (e : reply) (s : kstate) (ctx : Z) (rest : list Z) :
  idle s = ctx :: rest →
  ∃ s', cifsd_find_crypto_ctx E ncpus e s FindLock = Next (s', FindRet ctx, [])
    ∧ idle s' = rest
    ∧ avail s' = avail s
    ∧ ctxs s' = ctxs s
    ∧ ∀ e' s'', cifsd_find_crypto_ctx E ncpus e' s'' (FindRet ctx) = Returned.
Proof.
  intros Hidle. exists (set_idle rest s).
  unfold cifsd_find_crypto_ctx. rewrite Hidle. auto.
Qed.

(** C1: an acquire that finds the idle set empty and the counter (a
    value in range) not greater than the bound increments the counter
    and goes on to construct a context; when [ctx_alloc] then answers a
    context, it is a new one (not live before, live and empty after),
    the call returns it and the idle set is not touched. *)
Theorem find_grows_and_returns_new (e : reply) (s : kstate) :
  idle s = [] → counter_in_range s → avail s <= ncpus →
  ∃ s1, cifsd_find_crypto_ctx E ncpus e s FindLock = Next (s1, FindAlloc, [])
    ∧ avail s1 = avail s + 1 ∧ idle s1 = [] ∧ ctxs s1 = ctxs s
    ∧ ∀ e2 s2, ctx_alloc_ret e2 ≠ NULL → reply_ok e2 s2 = true →
        ∃ s3, cifsd_find_crypto_ctx E ncpus e2 s2 FindAlloc
              = Next (s3, FindRet (ctx_alloc_ret e2), [EvCtxAlloc (ctx_alloc_ret e2)])
          ∧ ctxs s2 !! ctx_alloc_ret e2 = None
          ∧ ctxs s3 = <[ctx_alloc_ret e2 := cifsd_alloc_ctx E]> (ctxs s2)
          ∧ idle s3 = idle s2 ∧ avail s3 = avail s2
          ∧ ∀ e' s', cifsd_find_crypto_ctx E ncpus e' s' (FindRet (ctx_alloc_ret e2))
                     = Returned.
Proof.
  intros Hidle _ Hle. exists (set_avail (avail s + 1) s).
  split.
  { unfold cifsd_find_crypto_ctx. rewrite Hidle.
    destruct (Z.gtb_spec (avail s) ncpus); [lia | reflexivity]. }
  repeat split; [exact Hidle |].
  intros e2 s2 Hnn Hok.
  exists (set_ctxs (<[ctx_alloc_ret e2 := cifsd_alloc_ctx E]> (ctxs s2)) s2).
  assert (Hz : (ctx_alloc_ret e2 =? NULL) = false) by (apply Z.eqb_neq; exact Hnn).
  split.
  { unfold cifsd_find_crypto_ctx, ctx_alloc. rewrite Hz. simpl. rewrite Hz. reflexivity. }
  split; [| auto].
  unfold reply_ok in Hok. rewrite Hz in Hok. simpl in Hok.
  apply andb_prop in Hok as [Hok _]. apply andb_prop in Hok as [Hok _].
  apply andb_prop in Hok as [_ Hok]. apply bool_decide_eq_true in Hok. exact Hok.
Qed.

(** On a counter in range the comparisons of the embedding are the
    unsigned comparisons of the C code, and the steps by one stay in the
    range of [int]. *)
Lemma counter_in_range_exact (s : kstate) :
  counter_in_range s → 0 <= ncpus →
  (to_unsigned (avail s) >? ncpus) = (avail s >? ncpus)
  ∧ (to_unsigned (avail s) <=? ncpus) = (avail s <=? ncpus)
  ∧ - INT_MAX - 1 <= avail s - 1 ∧ avail s + 1 <= INT_MAX.
Proof.
  unfold counter_in_range, to_unsigned, INT_MAX. intros [H0 H1] _.
  rewrite Z.mod_small by lia. repeat split; lia.
Qed.

(** The calls of [ctx_free], by what they hand back. *)
Lemma free_shash_events (l : list (option shash_desc)) :
  shash_frees (flat_map free_shash l) = map shash_tfm (omap id l)
  ∧ kfrees (flat_map free_shash l) = map shash_addr (omap id l)
  ∧ aead_frees (flat_map free_shash l) = []
  ∧ ctx_frees (flat_map free_shash l) = [].
Proof.
  unfold shash_frees, kfrees, aead_frees, ctx_frees.
  induction l as [| [d |] l (IH1 & IH2 & IH3 & IH4)]; cbn;
    repeat split; congruence.
Qed.

Lemma free_aead_events (l : list (option Z)) :
  shash_frees (flat_map free_aead l) = []
  ∧ kfrees (flat_map free_aead l) = []
  ∧ aead_frees (flat_map free_aead l) = omap id l
  ∧ ctx_frees (flat_map free_aead l) = [].
Proof.
  unfold shash_frees, kfrees, aead_frees, ctx_frees.
  induction l as [| [d |] l (IH1 & IH2 & IH3 & IH4)]; cbn;
    repeat split; congruence.
Qed.

(** [ctx_free] on a live context: every handle of the context is handed
    back, slot by slot, then the context itself; nothing else changes. *)
Lemma ctx_free_events (ctx : Z) (s : kstate) (cx : cifsd_crypto_ctx) :
  ctxs s !! ctx = Some cx →
  ∃ evs, ctx_free E ctx s = Some (set_ctxs (delete ctx (ctxs s)) s, evs)
    ∧ shash_frees evs = map shash_tfm (shash_handles E cx)
    ∧ kfrees evs = map shash_addr (shash_handles E cx)
    ∧ aead_frees evs = aead_handles E cx
    ∧ ctx_frees evs = [ctx]
    ∧ last evs = Some (EvCtxFree ctx).
Proof.
  intros Hcx. unfold ctx_free. rewrite Hcx. eexists. split; [reflexivity |].
  destruct (free_shash_events (take (Z.to_nat (CRYPTO_SHASH_MAX E)) (desc cx)))
    as (Hs1 & Hs2 & Hs3 & Hs4).
  destruct (free_aead_events (take (Z.to_nat (CRYPTO_AEAD_MAX E)) (ccmaes cx)))
    as (Ha1 & Ha2 & Ha3 & Ha4).
  unfold shash_frees, kfrees, aead_frees, ctx_frees, shash_handles, aead_handles in *.
  rewrite !omap_app, Hs1, Hs2, Hs3, Hs4, Ha1, Ha2, Ha3, Ha4. simpl.
  rewrite !app_nil_r. repeat split.
  rewrite app_assoc. apply last_snoc.
Qed.

(** The calls of [ctx_free] on a live context, one by one. *)
Lemma ctx_free_trace (ctx : Z) (s : kstate) (cx : cifsd_crypto_ctx) :
  ctxs s !! ctx = Some cx →
  ctx_free E ctx s = Some (set_ctxs (delete ctx (ctxs s)) s, handed_back E ctx cx).
Proof.
  intros Hcx. unfold ctx_free, handed_back, shash_handles, aead_handles. rewrite Hcx.
  do 3 f_equal; [| f_equal].
  - induction (take (Z.to_nat (CRYPTO_SHASH_MAX E)) (desc cx)) as [| [d |] l IH];
      cbn in *; congruence.
  - induction (take (Z.to_nat (CRYPTO_AEAD_MAX E)) (ccmaes cx)) as [| [d |] l IH];
      cbn in *; congruence.
Qed.

(** C2: a release of a non-null context, by the counter (a value in
    range): within the bound the context is put in front of the idle
    set, the counter is kept and the waiters are woken; over the bound
    the counter is decremented by one and the context is destroyed, not
    pooled: every handle in its slots is handed back to the provider
    (and the block of every keyed-hash handle to the allocator), then
    the context itself is freed. *)
Theorem release_pools_or_destroys (s : kstate) (ctx : Z) :
  ctx ≠ NULL → counter_in_range s →
  (avail s <= ncpus →
     ∃ s1, cifsd_release_crypto_ctx E ncpus s (RelEntry ctx) = Next (s1, RelWake, [])
       ∧ idle s1 = ctx :: idle s ∧ avail s1 = avail s ∧ ctxs s1 = ctxs s
       ∧ ∀ s2, cifsd_release_crypto_ctx E ncpus s2 RelWake = Next (s2, RelRet, [EvWakeUp]))
  ∧ (ncpus < avail s →
     ∃ s1, cifsd_release_crypto_ctx E ncpus s (RelEntry ctx) = Next (s1, RelFree ctx, [])
       ∧ idle s1 = idle s ∧ avail s1 = avail s - 1 ∧ ctxs s1 = ctxs s
       ∧ ∀ s2 cx, ctxs s2 !! ctx = Some cx →
           ∃ s3 evs, cifsd_release_crypto_ctx E ncpus s2 (RelFree ctx)
                     = Next (s3, RelRet, evs)
             ∧ evs = handed_back E ctx cx
             ∧ shash_frees evs = map shash_tfm (shash_handles E cx)
             ∧ kfrees evs = map shash_addr (shash_handles E cx)
             ∧ aead_frees evs = aead_handles E cx
             ∧ ctx_frees evs = [ctx]
             ∧ last evs = Some (EvCtxFree ctx)
             ∧ ctxs s3 = delete ctx (ctxs s2)
             ∧ idle s3 = idle s2 ∧ avail s3 = avail s2).
Proof.
  intros Hnn _.
  assert (Hz : (ctx =? NULL) = false) by (apply Z.eqb_neq; exact Hnn).
  split; intros Hcmp.
  - exists (set_idle (ctx :: idle s) s). unfold cifsd_release_crypto_ctx.
    rewrite Hz. destruct (Z.leb_spec (avail s) ncpus); [auto | lia].
  - exists (set_avail (avail s - 1) s). unfold cifsd_release_crypto_ctx.
    rewrite Hz. destruct (Z.leb_spec (avail s) ncpus); [lia |].
    repeat split. intros s2 cx Hcx.
    destruct (ctx_free_events ctx s2 cx Hcx) as (evs & Hfree & H1 & H2 & H3 & H4 & H5).
    rewrite Hfree. exists (set_ctxs (delete ctx (ctxs s2)) s2), evs.
    split; [reflexivity |]. split; [| auto 10].
    pose proof (ctx_free_trace ctx s2 cx Hcx) as Ht. congruence.
Qed.

(** C8: an identifier at or over the bound of its family is rejected by
    the lookup in its first step: the result is [NULL], the state (idle
    set, counter, contexts) is the same and no call is made. *)
Theorem out_of_range_is_local (f : family) (id : Z) (e : reply) (s : kstate) :
  family_max E f <= id →
  family_find E ncpus f id e s CfEntry = Next (s, CfRet NULL, [])
  ∧ ∀ e' s', family_find E ncpus f id e' s' (CfRet NULL) = Returned.
Proof.
  intros Hge. destruct f; simpl in *.
  - destruct (Z.geb_spec id (CRYPTO_SHASH_MAX E)); [auto | lia].
  - destruct (Z.geb_spec id (CRYPTO_AEAD_MAX E)); [auto | lia].
Qed.

(** C9: [cifsd_crypto_create] sets the counter to 1 and makes one call
    of the allocator.  With a context it returns 0 and that context, new
    and empty, is the idle set; without one it returns [-ENOMEM], a
    failure, and the idle set is empty. *)
Theorem create_seeds_the_pool (e : reply) (s : kstate) :
  ∃ ret s', cifsd_crypto_create E e s = (ret, s', [EvCtxAlloc (ctx_alloc_ret e)])
    ∧ avail s' = 1
    ∧ (if ctx_alloc_ret e =? NULL
       then ret = - ENOMEM ∧ ret ≠ 0 ∧ idle s' = [] ∧ ctxs s' = ctxs s
       else ret = 0 ∧ idle s' = [ctx_alloc_ret e]
            ∧ ctxs s' = <[ctx_alloc_ret e := cifsd_alloc_ctx E]> (ctxs s)).
Proof.
  unfold cifsd_crypto_create, ctx_alloc. simpl.
  destruct (ctx_alloc_ret e =? NULL) eqn:Hz; simpl.
  - apply Z.eqb_eq in Hz. rewrite Hz. eexists _, _. split; [reflexivity |].
    repeat split. discriminate.
  - rewrite Hz. eexists _, _. split; [reflexivity |]. repeat split.
Qed.

(** Reading back the array entry that was just written. *)
Lemma array_get_set_eq {A : Type} (a : list A) (i : Z) (x y : A) :
  array_get a i = Some y → array_get (array_set a i x) i = Some x.
Proof.
  unfold array_get, array_set. destruct (i <? 0); [discriminate |].
  intros Hy. apply list_lookup_insert_eq. eapply lookup_lt_Some. exact Hy.
Qed.

Lemma factory_calls_app (l1 l2 : list event) :
  factory_calls (l1 ++ l2) = (factory_calls l1 + factory_calls l2)%nat.
Proof. unfold factory_calls. rewrite filter_app, length_app. reflexivity. Qed.

(** The provider calls inside the two Factories are not Factory calls. *)
Lemma alloc_shash_desc_calls (id : Z) (e : reply) (r : option shash_desc)
    (evs : list event) :
  alloc_shash_desc E id e = Some (r, evs) → factory_calls evs = 0%nat.
Proof.
  unfold alloc_shash_desc.
  destruct (shash_name E id); simpl;
    repeat match goal with |- context [if ?b then _ else _] => destruct b end;
    intros [= <- <-]; reflexivity.
Qed.

Lemma alloc_aead_calls (id : Z) (e : reply) :
  factory_calls (snd (alloc_aead E id e)) = 0%nat.
Proof.
  unfold alloc_aead.
  destruct (aead_name E id); simpl;
    repeat match goal with |- context [if ?b then _ else _] => destruct b end;
    reflexivity.
Qed.

(** The slot part of a lookup on an empty slot: the Factory is called
    once and its answer is stored in the slot; with a handle the lookup
    returns the context, without one it goes on to release it. *)
Lemma slot_step_empty (f : family) (id : Z) (e : reply) (s : kstate) (ctx : Z)
    (r : option handle) :
  slot f s ctx id = Some None →
  factory_result E f id e = Some r →
  ∃ s1 evs,
    family_find E ncpus f id e s (CfFind (FindRet ctx))
    = Next (s1, match r with
                | Some _ => CfRet ctx
                | None => CfRelease (RelEntry ctx)
                end, evs)
    ∧ slot f s1 ctx id = Some r
    ∧ ctx_list s1 = ctx_list s
    ∧ factory_calls evs = 1%nat.
Proof.
  unfold slot, factory_result. intros Hslot Hfac.
  destruct (ctxs s !! ctx) as [cx |] eqn:Hcx; [| discriminate].
  destruct f; simpl.
  - unfold shash_slot. rewrite Hcx.
    destruct (array_get (desc cx) id) as [[d |] |] eqn:Hget; try discriminate.
    destruct (alloc_shash_desc E id e) as [[h evs] |] eqn:Hal; [| discriminate].
    simpl in Hfac. injection Hfac as <-.
    eexists _, (evs ++ [EvAllocShashDesc id h]).
    split; [destruct h; reflexivity |].
    split.
    { simpl. rewrite lookup_insert_eq. simpl.
      rewrite (array_get_set_eq _ _ _ _ Hget). reflexivity. }
    split; [reflexivity |].
    rewrite factory_calls_app, (alloc_shash_desc_calls _ _ _ _ Hal). reflexivity.
  - unfold aead_slot. rewrite Hcx.
    destruct (array_get (ccmaes cx) id) as [[d |] |] eqn:Hget; try discriminate.
    pose proof (alloc_aead_calls id e) as Hcalls.
    destruct (alloc_aead E id e) as [h evs] eqn:Hal.
    simpl in Hfac, Hcalls. injection Hfac as <-.
    eexists _, (evs ++ [EvAllocAead id h]).
    split; [destruct h; reflexivity |].
    split.
    { simpl. rewrite lookup_insert_eq. simpl.
      rewrite (array_get_set_eq _ _ _ _ Hget). reflexivity. }
    split; [reflexivity |].
    rewrite factory_calls_app, Hcalls. reflexivity.
Qed.

(** The slot part of a lookup on a populated slot returns at once. *)
Lemma slot_step_filled (f : family) (id : Z) (e : reply) (s : kstate) (ctx : Z)
    (h : handle) :
  slot f s ctx id = Some (Some h) →
  family_find E ncpus f id e s (CfFind (FindRet ctx)) = Next (s, CfRet ctx, []).
Proof.
  unfold slot. intros Hslot.
  destruct (ctxs s !! ctx) as [cx |] eqn:Hcx; [| discriminate].
  destruct f; simpl.
  - unfold shash_slot. rewrite Hcx.
    destruct (array_get (desc cx) id) as [[d |] |]; try discriminate. reflexivity.
  - unfold aead_slot. rewrite Hcx.
    destruct (array_get (ccmaes cx) id) as [[d |] |]; try discriminate. reflexivity.
Qed.

(** C6: on a populated slot of an in-range identifier the lookup returns
    the context with the cached handle, the state is unchanged and the
    Factory is not called.  Hence, from an empty slot and a Factory that
    answers a handle [h], two lookups in a row both leave [h] in the
    slot, and the Factory is called once in the first and never in the
    second. *)
Theorem slot_is_cached (f : family) (id : Z) (e1 e2 : reply) (s : kstate)
    (ctx : Z) (h : handle) :
  0 <= id < family_max E f →
  (slot f s ctx id = Some (Some h) →
     family_find E ncpus f id e1 s (CfFind (FindRet ctx)) = Next (s, CfRet ctx, []))
  ∧ (slot f s ctx id = Some None →
     factory_result E f id e1 = Some (Some h) →
     ∃ s1 evs1,
       family_find E ncpus f id e1 s (CfFind (FindRet ctx)) = Next (s1, CfRet ctx, evs1)
       ∧ slot f s1 ctx id = Some (Some h)
       ∧ family_find E ncpus f id e2 s1 (CfFind (FindRet ctx)) = Next (s1, CfRet ctx, [])
       ∧ factory_calls (evs1 ++ []) = 1%nat).
Proof.
  intros _. split.
  - apply slot_step_filled.
  - intros Hslot Hfac.
    destruct (slot_step_empty f id e1 s ctx (Some h) Hslot Hfac)
      as (s1 & evs1 & Hstep & Hslot1 & _ & Hcalls).
    exists s1, evs1. split; [exact Hstep |]. split; [exact Hslot1 |].
    split; [exact (slot_step_filled f id e2 s1 ctx h Hslot1) |].
    rewrite app_nil_r. exact Hcalls.
Qed.

(** C5 (as the code has it): when the Factory answers "unavailable" on
    an empty slot, the slot stays empty and the lookup itself runs
    [cifsd_release_crypto_ctx] on the context it acquired, once, then
    returns [NULL]: the caller is handed no context. *)
Theorem failed_lookup_releases_itself (f : family) (id : Z) (e : reply)
    (s : kstate) (ctx : Z) :
  slot f s ctx id = Some None →
  factory_result E f id e = Some None →
  ∃ s1 evs1,
    family_find E ncpus f id e s (CfFind (FindRet ctx))
    = Next (s1, CfRelease (RelEntry ctx), evs1)
    ∧ slot f s1 ctx id = Some None
    ∧ ctx_list s1 = ctx_list s
    ∧ factory_calls evs1 = 1%nat
    ∧ (∀ e' s2 k, k ≠ RelRet →
         family_find E ncpus f id e' s2 (CfRelease k)
         = in_release (cifsd_release_crypto_ctx E ncpus s2 k))
    ∧ (∀ e' s2,
         family_find E ncpus f id e' s2 (CfRelease RelRet) = Next (s2, CfRet NULL, []))
    ∧ (∀ e' s2, family_find E ncpus f id e' s2 (CfRet NULL) = Returned)
    ∧ task_ret (match f with
                | Shash => TShash id (CfRet NULL)
                | Aead => TAead id (CfRet NULL)
                end) = None.
Proof.
  intros Hslot Hfac.
  destruct (slot_step_empty f id e s ctx None Hslot Hfac)
    as (s1 & evs1 & Hstep & Hslot1 & Hlist & Hcalls).
  exists s1, evs1. repeat split; try assumption.
  - intros e' s2 k Hk. destruct f, k; try reflexivity; contradiction.
  - intros e' s2. destruct f; reflexivity.
  - intros e' s2. destruct f; reflexivity.
  - destruct f; reflexivity.
Qed.

(** [ctx_free] calls [cifsd_free] once, on its argument. *)
Lemma ctx_free_frees (ctx : Z) (s s' : kstate) (evs : list event) :
  ctx_free E ctx s = Some (s', evs) →
  s' = set_ctxs (delete ctx (ctxs s)) s ∧ ctx_frees evs = [ctx].
Proof.
  unfold ctx_free. destruct (ctxs s !! ctx) as [cx |]; [| discriminate].
  intros [= <- <-]. split; [reflexivity |].
  unfold ctx_frees. rewrite !omap_app.
  assert (Hs : ∀ l, omap (λ ev, match ev with EvCtxFree c => Some c | _ => None end)
                      (flat_map free_shash l) = []).
  { induction l as [| [d |] l IH]; simpl; auto. }
  assert (Ha : ∀ l, omap (λ ev, match ev with EvCtxFree c => Some c | _ => None end)
                      (flat_map free_aead l) = []).
  { induction l as [| [d |] l IH]; simpl; auto. }
  rewrite Hs, Ha. reflexivity.
Qed.

(** The loop of the shutdown over a well-formed list [l]. *)
Lemma destroy_loop_spec (l : list Z) (s : kstate) :
  NoDup l → (∀ ctx, ctx ∈ l → is_Some (ctxs s !! ctx)) →
  ∃ s' evs, destroy_loop E l s = Some (s', evs)
    ∧ avail s' = avail s
    ∧ idle s' = match l with [] => idle s | _ :: _ => [] end
    ∧ (∀ ctx, ctx ∈ l → ctxs s' !! ctx = None)
    ∧ (∀ ctx, ctx ∉ l → ctxs s' !! ctx = ctxs s !! ctx)
    ∧ ctx_frees evs = l.
Proof.
  revert s. induction l as [| c rest IH]; intros s Hnd Hlive.
  - exists s, []. simpl. repeat split; auto. intros ctx Hin. inversion Hin.
  - apply NoDup_cons in Hnd as [Hnotin Hnd].
    destruct (Hlive c) as [cx Hcx]; [left |].
    simpl. unfold ctx_free. simpl. rewrite Hcx.
    set (evs1 := _ ++ _ ++ [EvCtxFree c]).
    set (s1 := set_ctxs _ _).
    assert (Hfree : ctx_free E c (set_idle rest s) = Some (s1, evs1)).
    { unfold ctx_free. simpl. rewrite Hcx. reflexivity. }
    apply ctx_free_frees in Hfree as [_ Hfrees].
    destruct (IH s1 Hnd) as (s2 & evs2 & Hloop & Hav & Hidle & Hdead & Hkeep & Hev).
    { intros ctx Hin. subst s1. simpl. rewrite lookup_delete_ne.
      - apply Hlive. right. exact Hin.
      - intros ->. contradiction. }
    rewrite Hloop. exists s2, (evs1 ++ evs2). split; [reflexivity |].
    split; [rewrite Hav; reflexivity |].
    split; [rewrite Hidle; destruct rest; reflexivity |].
    split; [| split].
    + intros ctx Hin. destruct (decide (ctx ∈ rest)) as [Hr | Hr]; [auto |].
      apply elem_of_cons in Hin as [-> | Hin]; [| contradiction].
      rewrite (Hkeep c Hr). subst s1. simpl. apply lookup_delete_eq.
    + intros ctx Hin. apply not_elem_of_cons in Hin as [Hne Hin].
      rewrite (Hkeep ctx Hin). subst s1. simpl. apply lookup_delete_ne. congruence.
    + unfold ctx_frees in *. rewrite omap_app, Hfrees, Hev. reflexivity.
Qed.

Lemma contexts_at_delete (s : kstate) (c : Z) (l : list Z) :
  c ∉ l → contexts_at (set_ctxs (delete c (ctxs s)) s) l = contexts_at s l.
Proof.
  unfold contexts_at. induction l as [| x l IH]; intros Hnin; [reflexivity |].
  apply not_elem_of_cons in Hnin as [Hne Hnin]. cbn.
  rewrite lookup_delete_ne by exact Hne.
  destruct (ctxs s !! x); cbn in *; rewrite (IH Hnin); reflexivity.
Qed.

(** The loop of the shutdown hands back the handles of every context of
    the list, context by context. *)
Lemma destroy_loop_frees (l : list Z) (s s' : kstate) (evs : list event) :
  NoDup l →
  destroy_loop E l s = Some (s', evs) →
  shash_frees evs
  = flat_map (λ cx, map shash_tfm (shash_handles E cx)) (contexts_at s l)
  ∧ kfrees evs
    = flat_map (λ cx, map shash_addr (shash_handles E cx)) (contexts_at s l)
  ∧ aead_frees evs = flat_map (aead_handles E) (contexts_at s l).
Proof.
  revert s s' evs. induction l as [| c rest IH]; intros s s' evs Hnd.
  - simpl. intros [= <- <-]. auto.
  - apply NoDup_cons in Hnd as [Hnotin Hnd]. cbn [destroy_loop].
    destruct (ctxs s !! c) as [cx |] eqn:Hcx;
      [| unfold ctx_free; simpl; rewrite Hcx; discriminate].
    destruct (ctx_free_events c (set_idle rest s) cx Hcx)
      as (evs1 & Hfree & H1 & H2 & H3 & _).
    rewrite Hfree.
    destruct (destroy_loop E rest _) as [[s2 evs2] |] eqn:Hloop; [| discriminate].
    intros [= <- <-].
    destruct (IH _ _ _ Hnd Hloop) as (I1 & I2 & I3).
    assert (Hat : contexts_at s (c :: rest) = cx :: contexts_at s rest)
      by (unfold contexts_at; cbn; rewrite Hcx; reflexivity).
    assert (Hrest : contexts_at (set_ctxs (delete c (ctxs (set_idle rest s)))
                                   (set_idle rest s)) rest
                    = contexts_at s rest)
      by (apply (contexts_at_delete (set_idle rest s) c rest Hnotin)).
    rewrite Hrest in I1, I2, I3. rewrite Hat. simpl.
    unfold shash_frees, kfrees, aead_frees in *.
    rewrite !omap_app, H1, H2, H3, I1, I2, I3. auto.
Qed.

(** The calls of the loop of the shutdown, one by one. *)
Lemma destroy_loop_trace (l : list Z) (s s' : kstate) (evs : list event) :
  NoDup l →
  destroy_loop E l s = Some (s', evs) →
  evs = concat (zip_with (handed_back E) l (contexts_at s l)).
Proof.
  revert s s' evs. induction l as [| c rest IH]; intros s s' evs Hnd.
  - simpl. intros [= <- <-]. reflexivity.
  - apply NoDup_cons in Hnd as [Hnotin Hnd]. cbn [destroy_loop].
    destruct (ctxs s !! c) as [cx |] eqn:Hcx;
      [| unfold ctx_free; simpl; rewrite Hcx; discriminate].
    rewrite (ctx_free_trace c (set_idle rest s) cx Hcx).
    destruct (destroy_loop E rest _) as [[s2 evs2] |] eqn:Hloop; [| discriminate].
    intros [= <- <-].
    assert (Hat : contexts_at s (c :: rest) = cx :: contexts_at s rest)
      by (unfold contexts_at; cbn; rewrite Hcx; reflexivity).
    rewrite Hat, (IH _ _ _ Hnd Hloop).
    rewrite (contexts_at_delete (set_idle rest s) c rest Hnotin). reflexivity.
Qed.

(** C10: the shutdown unlinks and destroys every context of the idle set
    (the handles in its slots are handed back, then the context is
    freed) and leaves the idle set empty; the other contexts are
    untouched and the counter keeps its value, so a release that comes
    afterwards is decided by that old value (a value in range): it pools
    the context when the value is within the bound and destroys it
    otherwise. *)
Theorem destroy_keeps_counter (s : kstate) :
  idle_wf s → counter_in_range s →
  ∃ s' evs, cifsd_crypto_destroy E s = Some (s', evs)
    ∧ idle s' = []
    ∧ avail s' = avail s
    ∧ (∀ ctx, ctx ∈ idle s → ctxs s' !! ctx = None)
    ∧ (∀ ctx, ctx ∉ idle s → ctxs s' !! ctx = ctxs s !! ctx)
    ∧ ctx_frees evs = idle s
    ∧ length (contexts_at s (idle s)) = length (idle s)
    ∧ evs = concat (zip_with (handed_back E) (idle s) (contexts_at s (idle s)))
    ∧ shash_frees evs
      = flat_map (λ cx, map shash_tfm (shash_handles E cx)) (contexts_at s (idle s))
    ∧ kfrees evs
      = flat_map (λ cx, map shash_addr (shash_handles E cx)) (contexts_at s (idle s))
    ∧ aead_frees evs = flat_map (aead_handles E) (contexts_at s (idle s))
    ∧ ∀ ctx, ctx ≠ NULL →
        cifsd_release_crypto_ctx E ncpus s' (RelEntry ctx)
        = if avail s <=? ncpus
          then Next (set_idle [ctx] s', RelWake, [])
          else Next (set_avail (avail s - 1) s', RelFree ctx, []).
Proof.
  intros [Hnd Hlive] _. unfold cifsd_crypto_destroy.
  destruct (destroy_loop_spec (idle s) s Hnd Hlive)
    as (s' & evs & Hloop & Hav & Hidle & Hdead & Hkeep & Hev).
  destruct (destroy_loop_frees (idle s) s s' evs Hnd Hloop) as (H1 & H2 & H3).
  assert (Hidle' : idle s' = []) by (rewrite Hidle; destruct (idle s); reflexivity).
  assert (Hlen : length (contexts_at s (idle s)) = length (idle s)).
  { clear - Hlive. unfold contexts_at. induction (idle s) as [| c l IH]; [reflexivity |].
    cbn. destruct (Hlive c) as [cx ->]; [left |]. cbn in *.
    rewrite IH; [reflexivity |]. intros x Hx. apply Hlive. right. exact Hx. }
  pose proof (destroy_loop_trace (idle s) s s' evs Hnd Hloop) as Ht.
  exists s', evs. repeat split; try assumption.
  intros ctx Hnn. unfold cifsd_release_crypto_ctx.
  assert (Hz : (ctx =? NULL) = false) by (apply Z.eqb_neq; exact Hnn).
  rewrite Hz, Hav, Hidle'. reflexivity.
Qed.

(** *** Invariants of the system *)

Ltac step_inv H :=
  repeat match type of H with
         | context [match ?x with _ => _ end] => destruct x eqn:?; simpl in H
         end;
  try discriminate H; try (injection H as <- <- <-).

(** One step of [cifsd_find_crypto_ctx] on the counter and the idle
    set. *)
Lemma find_step_pool (e : reply) (s s' : kstate) (k k' : find_pc) (evs : list event) :
  cifsd_find_crypto_ctx E ncpus e s k = Next (s', k', evs) →
  (avail s' = avail s ∨ avail s' = avail s - 1
   ∨ (avail s <= ncpus ∧ avail s' = avail s + 1 ∧ k' = FindAlloc))
  ∧ (Forall (λ c, c ≠ NULL) (idle s) →
     Forall (λ c, c ≠ NULL) (idle s') ∧ ∀ c, k' = FindRet c → c ≠ NULL).
Proof.
  intros H. destruct k; simpl in H.
  - remember (idle s) as l eqn:Hidle in H. destruct l as [| c rest].
    + destruct (Z.gtb_spec (avail s) ncpus); injection H as <- <- <-; simpl.
      * split; [auto |]. intros Hnn. split; [exact Hnn | discriminate].
      * split; [right; right; repeat split; unfold avail in *; simpl; lia |].
        intros Hnn. split; [exact Hnn | discriminate].
    + injection H as <- <- <-. split; [left; reflexivity |].
      rewrite <- Hidle. intros Hnn. apply Forall_cons in Hnn as [Hc Hrest].
      split; [exact Hrest |]. intros c' [= <-]. exact Hc.
  - remember (idle s) as l eqn:Hidle in H. destruct l; [discriminate |].
    injection H as <- <- <-.
    split; [auto |]. intros Hnn. split; [exact Hnn | discriminate].
  - unfold ctx_alloc in H.
    destruct (ctx_alloc_ret e =? NULL) eqn:Hz; simpl in H.
    + injection H as <- <- <-. split; [auto |]. intros Hnn. split; [exact Hnn | discriminate].
    + rewrite Hz in H. injection H as <- <- <-. split; [auto |].
      intros Hnn. split; [exact Hnn |]. intros c [= <-]. apply Z.eqb_neq. exact Hz.
  - injection H as <- <- <-. split; [auto |].
    intros Hnn. split; [exact Hnn | discriminate].
  - discriminate.
Qed.

(** One step of [cifsd_release_crypto_ctx] on the counter and the idle
    set. *)
Lemma release_step_pool (s s' : kstate) (k k' : release_pc) (evs : list event) :
  cifsd_release_crypto_ctx E ncpus s k = Next (s', k', evs) →
  (avail s' = avail s ∨ avail s' = avail s - 1)
  ∧ (Forall (λ c, c ≠ NULL) (idle s) → Forall (λ c, c ≠ NULL) (idle s')).
Proof.
  intros H. destruct k; simpl in H.
  - destruct (ctx =? NULL) eqn:Hz.
    + injection H as <- <- <-. auto.
    + destruct (avail s <=? ncpus); injection H as <- <- <-; simpl.
      * split; [auto |]. intros Hnn. apply Forall_cons. split; [| exact Hnn].
        apply Z.eqb_neq. exact Hz.
      * auto.
  - injection H as <- <- <-. auto.
  - destruct (ctx_free E ctx s) as [[s1 evs1] |] eqn:Hfree; [| discriminate].
    injection H as <- <- <-. apply ctx_free_frees in Hfree as [-> _]. auto.
  - discriminate.
Qed.

(** The slot part of a lookup leaves [ctx_list] alone and ends the call
    of the find. *)
Lemma slot_step_pool (f : family) (id : Z) (e : reply) (s s' : kstate) (ctx : Z)
    (k' : ctx_find_pc) (evs : list event) :
  family_find E ncpus f id e s (CfFind (FindRet ctx)) = Next (s', k', evs) →
  ctx_list s' = ctx_list s ∧ ∀ k, k' ≠ CfFind k.
Proof.
  intros H. destruct f; simpl in H.
  - unfold shash_slot in H. step_inv H; split; (reflexivity || discriminate).
  - unfold aead_slot in H. step_inv H; split; (reflexivity || discriminate).
Qed.

(** One step of a lookup on the counter and the idle set. *)
Lemma lookup_step_pool (f : family) (id : Z) (e : reply) (s s' : kstate)
    (k k' : ctx_find_pc) (evs : list event) :
  family_find E ncpus f id e s k = Next (s', k', evs) →
  (avail s' = avail s ∨ avail s' = avail s - 1
   ∨ (avail s <= ncpus ∧ avail s' = avail s + 1 ∧ k' = CfFind FindAlloc))
  ∧ (Forall (λ c, c ≠ NULL) (idle s) →
     Forall (λ c, c ≠ NULL) (idle s') ∧ ∀ c, k' = CfFind (FindRet c) → c ≠ NULL).
Proof.
  intros H. destruct k as [| kf | kr |].
  - assert (s' = s ∧ (k' = CfRet NULL ∨ k' = CfFind FindLock)) as [-> Hk'].
    { destruct f; simpl in H;
        match type of H with context [if ?b then _ else _] => destruct b end;
        injection H as <- <- <-; auto. }
    split; [auto |]. intros Hnn. split; [exact Hnn |].
    intros c ->. destruct Hk'; discriminate.
  - assert (Hkf : (∃ c, kf = FindRet c) ∨ ∀ c, kf ≠ FindRet c)
      by (destruct kf; eauto; right; discriminate).
    destruct Hkf as [[c ->] | Hnot].
    + apply slot_step_pool in H as [Hlist Hk'].
      unfold avail, idle. rewrite Hlist. split; [auto |].
      intros Hnn. split; [exact Hnn |]. intros c' ->. destruct (Hk' _ eq_refl).
    + assert (Hin : in_find (cifsd_find_crypto_ctx E ncpus e s kf) = Next (s', k', evs)).
      { destruct f, kf; try exact H; exfalso; exact (Hnot _ eq_refl). }
      destruct (cifsd_find_crypto_ctx E ncpus e s kf) as [[[s1 k1] evs1] | | |] eqn:Hf;
        try discriminate.
      simpl in Hin. injection Hin as <- <- <-.
      apply find_step_pool in Hf as [Hav Hnn]. split.
      * destruct Hav as [? | [? | (? & ? & ->)]]; auto.
      * intros Hi. destruct (Hnn Hi) as [Hi' Hret]. split; [exact Hi' |].
        intros c [= ->]. apply Hret. reflexivity.
  - assert (Hkr : kr = RelRet ∨ kr ≠ RelRet)
      by (destruct kr; auto; right; discriminate).
    destruct Hkr as [-> | Hnot].
    + assert (s' = s ∧ k' = CfRet NULL) as [-> ->].
      { destruct f; simpl in H; injection H as <- <- <-; auto. }
      split; [auto |]. intros Hnn. split; [exact Hnn | discriminate].
    + assert (Hin : in_release (cifsd_release_crypto_ctx E ncpus s kr) = Next (s', k', evs)).
      { destruct f, kr; try exact H; contradiction. }
      destruct (cifsd_release_crypto_ctx E ncpus s kr) as [[[s1 k1] evs1] | | |] eqn:Hr;
        try discriminate.
      simpl in Hin. injection Hin as <- <- <-.
      apply release_step_pool in Hr as [Hav Hnn]. split.
      * destruct Hav; auto.
      * intros Hi. split; [auto | discriminate].
  - destruct f; discriminate.
Qed.

(** One step of any task on the counter and the idle set: the counter
    goes up only by one, from a value within the bound, into the
    construction of a context. *)
Lemma task_step_pool (e : reply) (s s' : kstate) (t t' : task) (evs : list event) :
  task_step E ncpus e s t = Next (s', t', evs) →
  (avail s' = avail s ∨ avail s' = avail s - 1
   ∨ (avail s <= ncpus ∧ avail s' = avail s + 1 ∧ creating t' = true))
  ∧ (Forall (λ c, c ≠ NULL) (idle s) →
     Forall (λ c, c ≠ NULL) (idle s') ∧ ∀ c, find_returned t' = Some c → c ≠ NULL).
Proof.
  intros H. destruct t as [k | k | id k | id k]; simpl in H.
  - destruct (cifsd_find_crypto_ctx E ncpus e s k) as [[[s1 k1] evs1] | | |] eqn:Hf;
      try discriminate.
    injection H as <- <- <-. apply find_step_pool in Hf as [Hav Hnn]. split.
    + destruct Hav as [? | [? | (? & ? & ->)]]; auto.
    + intros Hi. destruct (Hnn Hi) as [Hi' Hret]. split; [exact Hi' |].
      intros c Hc. destruct k1; try discriminate. injection Hc as <-. auto.
  - destruct (cifsd_release_crypto_ctx E ncpus s k) as [[[s1 k1] evs1] | | |] eqn:Hr;
      try discriminate.
    injection H as <- <- <-. apply release_step_pool in Hr as [Hav Hnn]. split.
    + destruct Hav; auto.
    + intros Hi. split; [auto | discriminate].
  - destruct (____crypto_shash_ctx_find E ncpus id e s k) as [[[s1 k1] evs1] | | |] eqn:Hf;
      try discriminate.
    injection H as <- <- <-.
    apply (lookup_step_pool Shash) in Hf as [Hav Hnn]. split.
    + destruct Hav as [? | [? | (? & ? & ->)]]; auto.
    + intros Hi. destruct (Hnn Hi) as [Hi' Hret]. split; [exact Hi' |].
      intros c Hc. destruct k1 as [| [] | |]; try discriminate.
      injection Hc as <-. auto.
  - destruct (____crypto_aead_ctx_find E ncpus id e s k) as [[[s1 k1] evs1] | | |] eqn:Hf;
      try discriminate.
    injection H as <- <- <-.
    apply (lookup_step_pool Aead) in Hf as [Hav Hnn]. split.
    + destruct Hav as [? | [? | (? & ? & ->)]]; auto.
    + intros Hi. destruct (Hnn Hi) as [Hi' Hret]. split; [exact Hi' |].
      intros c Hc. destruct k1 as [| [] | |]; try discriminate.
      injection Hc as <-. auto.
Qed.

(** An action changes the kernel state only through a step of a task. *)
Lemma sys_step_cases (a : action) (sy sy' : system) :
  sys_step E ncpus a sy = Some sy' →
  (kern sy' = kern sy ∧ ∃ t, tasks sy' = tasks sy ++ [t] ∧ find_returned t = None)
  ∨ (∃ i e t t' evs, tasks sy !! i = Some t
       ∧ task_step E ncpus e (kern sy) t = Next (kern sy', t', evs)
       ∧ tasks sy' = <[i := t']> (tasks sy)).
Proof.
  destruct a as [| ctx | id | id | i e]; simpl.
  - intros [= <-]. left. simpl. eauto.
  - destruct (ctx =? NULL).
    + intros [= <-]. left. simpl. eauto.
    + destruct (take_out ctx (out sy)); [| discriminate].
      intros [= <-]. left. simpl. eauto.
  - intros [= <-]. left. simpl. eauto.
  - intros [= <-]. left. simpl. eauto.
  - destruct (reply_ok e (kern sy)); [| discriminate].
    destruct (tasks sy !! i) as [t |] eqn:Ht; [| discriminate].
    destruct (task_step E ncpus e (kern sy) t) as [[[s1 t1] evs1] | | |] eqn:Hstep;
      try discriminate.
    intros [= <-]. right. simpl. exists i, e, t, t1, evs1. auto.
Qed.

Lemma sys_step_bound (a : action) (sy sy' : system) :
  sys_step E ncpus a sy = Some sy' →
  avail (kern sy) <= ncpus + 1 → avail (kern sy') <= ncpus + 1.
Proof.
  intros Hstep Hb. apply sys_step_cases in Hstep as [[-> _] | Hrun]; [exact Hb |].
  destruct Hrun as (i & e & t & t' & evs & _ & Hstep & _).
  apply task_step_pool in Hstep as [Hav _]. lia.
Qed.

Lemma sys_step_nonnull (a : action) (sy sy' : system) :
  sys_step E ncpus a sy = Some sy' → sys_nonnull sy → sys_nonnull sy'.
Proof.
  intros Hstep [Hidle Htasks]. unfold sys_nonnull.
  apply sys_step_cases in Hstep as [[-> (t & -> & Ht)] | Hrun].
  - split; [exact Hidle |]. apply Forall_app. split; [exact Htasks |].
    apply Forall_singleton. intros c Hc. congruence.
  - destruct Hrun as (i & e & t & t' & evs & _ & Hstep & ->).
    apply task_step_pool in Hstep as [_ Hnn]. destruct (Hnn Hidle) as [Hidle' Hret].
    split; [exact Hidle' |]. apply Forall_insert; assumption.
Qed.

Lemma run_bound (acts : list action) (sy sy' : system) :
  run E ncpus acts sy = Some sy' →
  avail (kern sy) <= ncpus + 1 → avail (kern sy') <= ncpus + 1.
Proof.
  revert sy. induction acts as [| a acts IH]; intros sy; simpl.
  - intros [= <-]. auto.
  - destruct (sys_step E ncpus a sy) as [sy1 |] eqn:Hstep; [| discriminate].
    intros Hrun Hb. apply (IH sy1 Hrun). exact (sys_step_bound a sy sy1 Hstep Hb).
Qed.


(** The pool as [cifsd_crypto_create] leaves it. *)
Lemma init_pool (e : reply) (sy : system) :
  init E e = Some sy → avail (kern sy) = 1 ∧ sys_nonnull sy.
Proof.
  unfold init, cifsd_crypto_create, ctx_alloc. simpl.
  destruct (reply_ok e boot); [| discriminate].
  destruct (ctx_alloc_ret e =? NULL) eqn:Hz; simpl.
  - intros [=].
  - rewrite Hz. simpl. intros [= <-]. simpl. split; [reflexivity |].
    split; simpl; [| constructor].
    apply Forall_singleton. apply Z.eqb_neq. exact Hz.
Qed.


(** C3 (as the code has it): in every state reachable from an
    initialized pool the counter is at most the bound plus one, also
    while a caller is constructing a context; a step raises the counter
    only by one, only from a value not greater than the bound, and only
    on the way into the construction. *)
Theorem counter_at_most_bound_plus_one (sy : system) :
  0 <= ncpus → reachable E ncpus sy →
  avail (kern sy) <= ncpus + 1
  ∧ ∀ e t s' t' evs,
      task_step E ncpus e (kern sy) t = Next (s', t', evs) →
      avail (kern sy) < avail s' →
      avail (kern sy) <= ncpus ∧ avail s' = avail (kern sy) + 1 ∧ creating t' = true.
Proof.
  intros Hpos (e0 & acts & sy0 & Hinit & Hrun).
  apply init_pool in Hinit as [H1 _]. split.
  - apply (run_bound acts sy0 sy Hrun). lia.
  - intros e t s' t' evs Hstep Hup.
    apply task_step_pool in Hstep as [Hav _]. destruct Hav as [? | [? | ?]]; [lia | lia | auto].
Qed.

(** *** Ownership of the contexts *)

Lemma occ_nil (c : Z) : occ c [] = 0%nat.
Proof. reflexivity. Qed.

Lemma occ_cons (c x : Z) (l : list Z) :
  occ c (x :: l) = ((if Z.eq_dec x c then 1 else 0) + occ c l)%nat.
Proof. unfold occ. simpl. destruct (Z.eq_dec x c); reflexivity. Qed.

Lemma occ_app (c : Z) (l1 l2 : list Z) : occ c (l1 ++ l2) = (occ c l1 + occ c l2)%nat.
Proof. apply count_occ_app. Qed.

Ltac pool_lia :=
  unfold live, set_avail, set_idle, set_ctxs, avail, idle in *; simpl in *;
  rewrite ?occ_app, ?occ_cons, ?occ_nil;
  repeat match goal with |- context [Z.eq_dec ?a ?b] => destruct (Z.eq_dec a b) end;
  try subst; try lia.

Lemma live_insert (s : kstate) (r c : Z) (cx : cifsd_crypto_ctx) :
  live (set_ctxs (<[r := cx]> (ctxs s)) s) c = if Z.eq_dec r c then 1%nat else live s c.
Proof.
  unfold live. simpl. destruct (Z.eq_dec r c) as [-> | Hne].
  - rewrite lookup_insert_eq. reflexivity.
  - rewrite lookup_insert_ne by exact Hne. reflexivity.
Qed.

Lemma live_delete (s : kstate) (r c : Z) :
  live (set_ctxs (delete r (ctxs s)) s) c = if Z.eq_dec r c then 0%nat else live s c.
Proof.
  unfold live. simpl. destruct (Z.eq_dec r c) as [-> | Hne].
  - rewrite lookup_delete_eq. reflexivity.
  - rewrite lookup_delete_ne by exact Hne. reflexivity.
Qed.

(** What a valid answer of [ctx_alloc] is. *)
Lemma reply_ok_fresh (e : reply) (s : kstate) :
  reply_ok e s = true → ctx_alloc_ret e ≠ NULL → live s (ctx_alloc_ret e) = 0%nat.
Proof.
  unfold reply_ok, live. intros Hok Hnn.
  apply andb_prop in Hok as [Hok _]. apply andb_prop in Hok as [Hok _].
  apply orb_prop in Hok as [Hz | Hok].
  - apply Z.eqb_eq in Hz. contradiction.
  - apply andb_prop in Hok as [_ Hok]. apply bool_decide_eq_true in Hok.
    rewrite Hok. reflexivity.
Qed.

(** A step of [cifsd_find_crypto_ctx] moves a context from the idle set
    to the call, or turns a reservation into a new context. *)
Lemma find_step_conserves (e : reply) (s s' : kstate) (k k' : find_pc)
    (evs : list event) :
  reply_ok e s = true →
  cifsd_find_crypto_ctx E ncpus e s k = Next (s', k', evs) →
  (∀ c, (occ c (idle s') + occ c (got k') + live s c)%nat
        = (occ c (idle s) + live s' c)%nat)
  ∧ avail s' + Z.of_nat (length (idle s) + find_reserved k)
    = avail s + Z.of_nat (length (idle s') + find_reserved k' + length (got k')).
Proof.
  intros Hok H. destruct k; simpl in H.
  - remember (idle s) as l eqn:Hidle in H. destruct l as [| c0 rest].
    + destruct (avail s >? ncpus); injection H as <- <- <-;
        (split; [intros c | ]; pool_lia).
    + injection H as <- <- <-. rewrite <- Hidle.
      split; [intros c |]; pool_lia.
  - remember (idle s) as l eqn:Hidle in H. destruct l; [discriminate |].
    injection H as <- <- <-. split; [intros c |]; pool_lia.
  - unfold ctx_alloc in H.
    destruct (ctx_alloc_ret e =? NULL) eqn:Hz; simpl in H.
    + injection H as <- <- <-. split; [intros c |]; pool_lia.
    + rewrite Hz in H. injection H as <- <- <-. apply Z.eqb_neq in Hz.
      pose proof (reply_ok_fresh e s Hok Hz) as Hfresh. split.
      * intros c. rewrite live_insert. pool_lia.
      * pool_lia.
  - injection H as <- <- <-. split; [intros c | ]; pool_lia.
  - discriminate.
Qed.

(** A step of [cifsd_release_crypto_ctx] moves the context from the call
    to the idle set, or takes it off the counter and then frees it. *)
Lemma release_step_conserves (s s' : kstate) (k k' : release_pc) (evs : list event) :
  cifsd_release_crypto_ctx E ncpus s k = Next (s', k', evs) →
  (∀ c, (occ c (idle s') + occ c (rel_holds k') + live s c)%nat
        = (occ c (idle s) + occ c (rel_holds k) + live s' c)%nat)
  ∧ avail s' + Z.of_nat (length (idle s) + rel_counted k)
    = avail s + Z.of_nat (length (idle s') + rel_counted k').
Proof.
  intros H. destruct k; simpl in H.
  - simpl. destruct (ctx =? NULL) eqn:Hz.
    + injection H as <- <- <-. split; [intros c |]; pool_lia.
    + destruct (avail s <=? ncpus); injection H as <- <- <-;
        (split; [intros c |]; pool_lia).
  - injection H as <- <- <-. split; [intros c |]; pool_lia.
  - destruct (ctx_free E ctx s) as [[s1 evs1] |] eqn:Hfree; [| discriminate].
    injection H as <- <- <-.
    assert (Hlive : live s ctx = 1%nat).
    { unfold ctx_free in Hfree. unfold live.
      destruct (ctxs s !! ctx); [reflexivity | discriminate]. }
    apply ctx_free_frees in Hfree as [-> _]. split.
    + intros c. rewrite live_delete. pool_lia.
    + pool_lia.
  - discriminate.
Qed.

(** The slot part of a lookup keeps every context live and passes the
    context on to the caller or to the release. *)
Lemma slot_step_conserves (f : family) (id : Z) (e : reply) (s s' : kstate)
    (ctx : Z) (k' : ctx_find_pc) (evs : list event) :
  family_find E ncpus f id e s (CfFind (FindRet ctx)) = Next (s', k', evs) →
  (∀ c, live s' c = live s c)
  ∧ ctx_list s' = ctx_list s
  ∧ (k' = CfRet ctx ∨ k' = CfRelease (RelEntry ctx)).
Proof.
  intros H.
  assert (Hupd : ∀ cx cx', ctxs s !! ctx = Some cx →
            ∀ c, live (set_ctxs (<[ctx := cx']> (ctxs s)) s) c = live s c).
  { intros cx cx' Hcx c. rewrite live_insert.
    destruct (Z.eq_dec ctx c) as [<- |]; [| reflexivity].
    unfold live. rewrite Hcx. reflexivity. }
  destruct f; simpl in H.
  - unfold shash_slot in H.
    destruct (ctxs s !! ctx) as [cx |] eqn:Hcx; [| discriminate].
    destruct (array_get (desc cx) id) as [[d |] |]; [| | discriminate].
    + injection H as <- <- <-. auto.
    + destruct (alloc_shash_desc E id e) as [[[h |] evs0] |]; [| | discriminate];
        injection H as <- <- <-; (split; [eapply Hupd; eauto | auto]).
  - unfold aead_slot in H.
    destruct (ctxs s !! ctx) as [cx |] eqn:Hcx; [| discriminate].
    destruct (array_get (ccmaes cx) id) as [[d |] |]; [| | discriminate].
    + injection H as <- <- <-. auto.
    + destruct (alloc_aead E id e) as [[h |] evs0];
        injection H as <- <- <-; (split; [eapply Hupd; eauto | auto]).
Qed.

Lemma handed_lookup_ret (f : family) (id c : Z) :
  handed (lookup_task f id (CfRet c)) = if c =? NULL then [] else [c].
Proof. destruct f; unfold handed; simpl; destruct (c =? NULL); reflexivity. Qed.

(** A step of a lookup conserves the owners and the counter. *)
Lemma lookup_step_conserves (f : family) (id : Z) (e : reply) (s s' : kstate)
    (k k' : ctx_find_pc) (evs : list event) :
  reply_ok e s = true →
  (∀ c, k = CfFind (FindRet c) → c ≠ NULL) →
  family_find E ncpus f id e s k = Next (s', k', evs) →
  (∀ c, (occ c (idle s') + occ c (holds (lookup_task f id k'))
         + occ c (handed (lookup_task f id k')) + live s c)%nat
        = (occ c (idle s) + occ c (holds (lookup_task f id k)) + live s' c)%nat)
  ∧ avail s' + Z.of_nat (length (idle s) + counted (lookup_task f id k))
    = avail s + Z.of_nat (length (idle s') + counted (lookup_task f id k')
                          + length (handed (lookup_task f id k'))).
Proof.
  intros Hok Hnn H. destruct k as [| kf | kr |].
  - assert (s' = s ∧ (k' = CfRet NULL ∨ k' = CfFind FindLock)) as [-> Hk'].
    { destruct f; simpl in H;
        match type of H with context [if ?b then _ else _] => destruct b end;
        injection H as <- <- <-; auto. }
    destruct Hk' as [-> | ->]; destruct f; (split; [intros c |]; pool_lia).
  - assert (Hkf : (∃ c, kf = FindRet c) ∨ got kf = [] ∧ ∀ c, kf ≠ FindRet c)
      by (destruct kf; eauto; right; split; (reflexivity || discriminate)).
    destruct Hkf as [[c0 ->] | [Hgot Hnot]].
    + specialize (Hnn c0 eq_refl). apply Z.eqb_neq in Hnn.
      apply slot_step_conserves in H as (Hlive & Hlist & Hk').
      assert (Hav : avail s' = avail s) by (unfold avail; rewrite Hlist; reflexivity).
      assert (Hid : idle s' = idle s) by (unfold idle; rewrite Hlist; reflexivity).
      rewrite Hav, Hid.
      destruct Hk' as [-> | ->].
      * rewrite handed_lookup_ret, Hnn. split.
        -- intros c. rewrite Hlive. destruct f; simpl; rewrite ?occ_cons, ?occ_nil; lia.
        -- destruct f; simpl; lia.
      * split.
        -- intros c. rewrite Hlive. destruct f; unfold handed; simpl; rewrite Hnn;
             rewrite ?occ_cons, ?occ_nil; lia.
        -- destruct f; unfold handed; simpl; rewrite Hnn; simpl; lia.
    + assert (Hin : in_find (cifsd_find_crypto_ctx E ncpus e s kf) = Next (s', k', evs)).
      { destruct f, kf; try exact H; exfalso; exact (Hnot _ eq_refl). }
      destruct (cifsd_find_crypto_ctx E ncpus e s kf) as [[[s1 k1] evs1] | | |] eqn:Hf;
        try discriminate.
      simpl in Hin. injection Hin as <- <- <-.
      apply (find_step_conserves e s s1 kf k1 evs1 Hok) in Hf as [Hocc Hcnt].
      split.
      * intros c. specialize (Hocc c).
        destruct f; unfold handed; simpl; rewrite Hgot, ?occ_nil; lia.
      * destruct f; unfold handed; simpl; rewrite Hgot; simpl; lia.
  - assert (Hkr : kr = RelRet ∨ kr ≠ RelRet)
      by (destruct kr; auto; right; discriminate).
    destruct Hkr as [-> | Hnot].
    + assert (s' = s ∧ k' = CfRet NULL) as [-> ->].
      { destruct f; simpl in H; injection H as <- <- <-; auto. }
      destruct f; (split; [intros c |]; pool_lia).
    + assert (Hin : in_release (cifsd_release_crypto_ctx E ncpus s kr) = Next (s', k', evs)).
      { destruct f, kr; try exact H; contradiction. }
      destruct (cifsd_release_crypto_ctx E ncpus s kr) as [[[s1 k1] evs1] | | |] eqn:Hr;
        try discriminate.
      simpl in Hin. injection Hin as <- <- <-.
      apply release_step_conserves in Hr as [Hocc Hcnt]. split.
      * intros c. specialize (Hocc c).
        destruct f; unfold handed; simpl; rewrite ?occ_nil; lia.
      * destruct f; unfold handed; simpl; lia.
  - destruct f; discriminate.
Qed.

(** A step of any task conserves the owners and the counter. *)
Lemma task_step_conserves (e : reply) (s s' : kstate) (t t' : task) (evs : list event) :
  reply_ok e s = true →
  (∀ c, find_returned t = Some c → c ≠ NULL) →
  task_step E ncpus e s t = Next (s', t', evs) →
  (∀ c, (occ c (idle s') + occ c (holds t') + occ c (handed t') + live s c)%nat
        = (occ c (idle s) + occ c (holds t) + live s' c)%nat)
  ∧ avail s' + Z.of_nat (length (idle s) + counted t)
    = avail s + Z.of_nat (length (idle s') + counted t' + length (handed t')).
Proof.
  intros Hok Hnn H. destruct t as [k | k | id k | id k]; simpl in H.
  - destruct (cifsd_find_crypto_ctx E ncpus e s k) as [[[s1 k1] evs1] | | |] eqn:Hf;
      try discriminate.
    injection H as <- <- <-.
    apply (find_step_conserves e s s1 k k1 evs1 Hok) in Hf as [Hocc Hcnt].
    assert (Hh : handed (TFind k1) = got k1) by (destruct k1; reflexivity).
    rewrite Hh. split.
    + intros c. specialize (Hocc c). simpl. rewrite ?occ_nil. lia.
    + simpl. lia.
  - destruct (cifsd_release_crypto_ctx E ncpus s k) as [[[s1 k1] evs1] | | |] eqn:Hr;
      try discriminate.
    injection H as <- <- <-.
    apply release_step_conserves in Hr as [Hocc Hcnt]. split.
    + intros c. specialize (Hocc c). unfold handed. simpl. rewrite ?occ_nil. lia.
    + unfold handed. simpl. lia.
  - destruct (____crypto_shash_ctx_find E ncpus id e s k) as [[[s1 k1] evs1] | | |] eqn:Hf;
      try discriminate.
    injection H as <- <- <-.
    apply (lookup_step_conserves Shash id e s s1 k k1 evs1 Hok); [| exact Hf].
    intros c ->. apply Hnn. reflexivity.
  - destruct (____crypto_aead_ctx_find E ncpus id e s k) as [[[s1 k1] evs1] | | |] eqn:Hf;
      try discriminate.
    injection H as <- <- <-.
    apply (lookup_step_conserves Aead id e s s1 k k1 evs1 Hok); [| exact Hf].
    intros c ->. apply Hnn. reflexivity.
Qed.

Lemma sum_list_with_insert (g : task → nat) (l : list task) (i : nat) (t t' : task) :
  l !! i = Some t →
  (sum_list_with g (<[i := t']> l) + g t = sum_list_with g l + g t')%nat.
Proof.
  revert i. induction l as [| x l IH]; intros [| i] Hi; simpl in *; try discriminate.
  - injection Hi as ->. lia.
  - specialize (IH i Hi). lia.
Qed.

Lemma take_out_spec (c : Z) (l o : list Z) :
  take_out c l = Some o →
  (∀ x, occ x l = (occ x o + occ x [c])%nat) ∧ length l = S (length o).
Proof.
  revert o. induction l as [| y l IH]; intros o; simpl; [discriminate |].
  destruct (y =? c) eqn:Hy.
  - apply Z.eqb_eq in Hy as ->. intros [= <-]. split; [| reflexivity].
    intros x. rewrite !occ_cons, occ_nil. lia.
  - destruct (take_out c l) as [o' |]; [| discriminate]. intros [= <-].
    destruct (IH o' eq_refl) as [Hocc Hlen]. split; [| simpl; lia].
    intros x. rewrite !occ_cons, Hocc, occ_cons. lia.
Qed.

Lemma sys_step_owned (a : action) (sy sy' : system) :
  sys_step E ncpus a sy = Some sy' → sys_nonnull sy → sys_owned sy → sys_owned sy'.
Proof.
  intros Hstep [_ Hnn] [Hocc Hcnt]. unfold sys_owned.
  assert (Hspawn : ∀ t, holds t = [] → counted t = 0%nat →
            sys_owned (spawn t sy)).
  { intros t Hh Hc. split; simpl.
    - intros c. rewrite sum_list_with_app. simpl. rewrite Hh, occ_nil, <- (Hocc c). lia.
    - rewrite sum_list_with_app. simpl. rewrite Hc, Hcnt. lia. }
  destruct a as [| ctx | id | id | i e]; simpl in Hstep.
  - injection Hstep as <-. apply Hspawn; reflexivity.
  - destruct (ctx =? NULL) eqn:Hz.
    + injection Hstep as <-. apply Z.eqb_eq in Hz as ->. apply Hspawn; reflexivity.
    + destruct (take_out ctx (out sy)) as [o |] eqn:Ho; [| discriminate].
      injection Hstep as <-. apply take_out_spec in Ho as [Hout Hlen]. split; simpl.
      * intros c. rewrite sum_list_with_app. simpl. rewrite Hz, <- (Hocc c), (Hout c). lia.
      * rewrite sum_list_with_app. simpl. rewrite Hz, Hcnt, Hlen. lia.
  - injection Hstep as <-. apply Hspawn; reflexivity.
  - injection Hstep as <-. apply Hspawn; reflexivity.
  - destruct (reply_ok e (kern sy)) eqn:Hok; [| discriminate].
    destruct (tasks sy !! i) as [t |] eqn:Ht; [| discriminate].
    destruct (task_step E ncpus e (kern sy) t) as [[[s1 t1] evs1] | | |] eqn:Hts;
      try discriminate.
    injection Hstep as <-.
    rewrite Forall_forall in Hnn.
    assert (Ht' : ∀ c, find_returned t = Some c → c ≠ NULL).
    { apply Hnn. eapply list_elem_of_lookup_2. exact Ht. }
    destruct (task_step_conserves e (kern sy) s1 t t1 evs1 Hok Ht' Hts) as [Hocc1 Hcnt1].
    assert (Hout : (match task_ret t1 with
                    | Some ctx => ctx :: out sy
                    | None => out sy
                    end) = handed t1 ++ out sy).
    { unfold handed. destruct (task_ret t1); reflexivity. }
    split; simpl; rewrite Hout.
    + intros c. specialize (Hocc c). specialize (Hocc1 c).
      pose proof (sum_list_with_insert (λ t, occ c (holds t)) (tasks sy) i t t1 Ht) as Hs.
      simpl in Hs. rewrite occ_app. lia.
    + pose proof (sum_list_with_insert counted (tasks sy) i t t1 Ht) as Hs.
      rewrite length_app. lia.
Qed.

Lemma run_owned (acts : list action) (sy sy' : system) :
  run E ncpus acts sy = Some sy' → sys_nonnull sy → sys_owned sy → sys_owned sy'.
Proof.
  revert sy. induction acts as [| a acts IH]; intros sy; simpl.
  - intros [= <-]. auto.
  - destruct (sys_step E ncpus a sy) as [sy1 |] eqn:Hstep; [| discriminate].
    intros Hrun Hnn Hown. apply (IH sy1 Hrun).
    + exact (sys_step_nonnull a sy sy1 Hstep Hnn).
    + exact (sys_step_owned a sy sy1 Hstep Hnn Hown).
Qed.

Lemma init_owned (e : reply) (sy : system) : init E e = Some sy → sys_owned sy.
Proof.
  unfold init, cifsd_crypto_create, ctx_alloc. simpl.
  destruct (reply_ok e boot); [| discriminate].
  destruct (ctx_alloc_ret e =? NULL) eqn:Hz; simpl.
  - intros [=].
  - rewrite Hz. simpl. intros [= <-]. split; simpl.
    + intros c. unfold idle, live. simpl. rewrite occ_cons, !occ_nil.
      destruct (Z.eq_dec (ctx_alloc_ret e) c) as [<- | Hne].
      * rewrite lookup_insert_eq. reflexivity.
      * rewrite lookup_insert_ne by exact Hne. rewrite lookup_empty. reflexivity.
    + reflexivity.
Qed.

(** In every reachable state each live context has exactly one owner
    and every owned context is live; hence the idle set is well formed,
    and the counter, which counts owners and reservations, is not
    negative. *)
Theorem reachable_owned (sy : system) :
  reachable E ncpus sy →
  sys_owned sy ∧ idle_wf (kern sy) ∧ 0 <= avail (kern sy).
Proof.
  intros (e0 & acts & sy0 & Hinit & Hrun).
  assert (Hown : sys_owned sy).
  { apply (run_owned acts sy0 sy Hrun).
    - apply init_pool in Hinit as [_ Hnn]. exact Hnn.
    - exact (init_owned e0 sy0 Hinit). }
  split; [exact Hown |]. destruct Hown as [Hocc Hcnt].
  assert (Hle : ∀ c, (occ c (idle (kern sy)) <= live (kern sy) c)%nat)
    by (intros c; specialize (Hocc c); lia).
  assert (Hlive1 : ∀ c, (live (kern sy) c <= 1)%nat)
    by (intros c; unfold live; destruct (ctxs (kern sy) !! c); lia).
  split; [split |].
  - apply NoDup_ListNoDup, (NoDup_count_occ Z.eq_dec). intros c.
    specialize (Hle c). specialize (Hlive1 c). unfold occ in Hle. lia.
  - intros c Hin. apply list_elem_of_In in Hin.
    apply (count_occ_In Z.eq_dec) in Hin. specialize (Hle c).
    unfold occ, live in Hle. destruct (ctxs (kern sy) !! c); [eauto | lia].
  - rewrite Hcnt. lia.
Qed.

(** *** Further properties of the lookups and of the pool *)

Lemma array_get_set_ne {A : Type} (a : list A) (i j : Z) (x y : A) :
  array_get a i = Some y → i ≠ j → array_get (array_set a i x) j = array_get a j.
Proof.
  unfold array_get, array_set. destruct (Z.ltb_spec i 0); [discriminate |].
  intros _ Hne. destruct (Z.ltb_spec j 0); [reflexivity |].
  apply list_lookup_insert_ne. lia.
Qed.

(** The slot part of a lookup writes at most the slot it was asked for,
    and only when that slot is empty. *)
Lemma slot_step_frame (f0 : family) (id0 : Z) (e : reply) (s s' : kstate) (ctx : Z)
    (k' : ctx_find_pc) (evs : list event) (f : family) (c id : Z) :
  family_find E ncpus f0 id0 e s (CfFind (FindRet ctx)) = Next (s', k', evs) →
  slot f s' c id = slot f s c id
  ∨ (f = f0 ∧ c = ctx ∧ id = id0 ∧ slot f s c id = Some None
     ∧ ∃ h, slot f s' c id = Some h).
Proof.
  intros H. destruct f0; simpl in H.
  - unfold shash_slot in H.
    destruct (ctxs s !! ctx) as [cx |] eqn:Hcx; [| discriminate].
    destruct (array_get (desc cx) id0) as [[d |] |] eqn:Hget; [| | discriminate].
    { injection H as <- <- <-. auto. }
    destruct (alloc_shash_desc E id0 e) as [[h evs0] |]; [| discriminate].
    assert (Hs' : s' = set_ctxs (<[ctx := mk_ctx (array_set (desc cx) id0 h) (ccmaes cx)]>
                                   (ctxs s)) s) by (destruct h; congruence).
    subst s'. clear H. unfold slot. simpl.
    destruct (Z.eq_dec ctx c) as [<- | Hne];
      [rewrite lookup_insert_eq, Hcx | rewrite lookup_insert_ne by exact Hne; auto].
    destruct f; simpl; [| auto].
    destruct (Z.eq_dec id0 id) as [<- | Hid].
    + right. rewrite Hget, (array_get_set_eq _ _ _ _ Hget). simpl. eauto 10.
    + left. rewrite (array_get_set_ne _ _ _ _ _ Hget Hid). reflexivity.
  - unfold aead_slot in H.
    destruct (ctxs s !! ctx) as [cx |] eqn:Hcx; [| discriminate].
    destruct (array_get (ccmaes cx) id0) as [[d |] |] eqn:Hget; [| | discriminate].
    { injection H as <- <- <-. auto. }
    destruct (alloc_aead E id0 e) as [h evs0].
    assert (Hs' : s' = set_ctxs (<[ctx := mk_ctx (desc cx) (array_set (ccmaes cx) id0 h)]>
                                   (ctxs s)) s) by (destruct h; congruence).
    subst s'. clear H. unfold slot. simpl.
    destruct (Z.eq_dec ctx c) as [<- | Hne];
      [rewrite lookup_insert_eq, Hcx | rewrite lookup_insert_ne by exact Hne; auto].
    destruct f; simpl; [auto |].
    destruct (Z.eq_dec id0 id) as [<- | Hid].
    + right. rewrite Hget, (array_get_set_eq _ _ _ _ Hget). simpl. eauto 10.
    + left. rewrite (array_get_set_ne _ _ _ _ _ Hget Hid). reflexivity.
Qed.

(** The slot part of a lookup returns a context only with the slot
    populated. *)
Lemma slot_step_returns (f : family) (id : Z) (e : reply) (s s' : kstate)
    (ctx c : Z) (evs : list event) :
  family_find E ncpus f id e s (CfFind (FindRet ctx)) = Next (s', CfRet c, evs) →
  c = ctx ∧ ∃ h, slot f s' c id = Some (Some h).
Proof.
  intros H. destruct (slot f s ctx id) as [[h |] |] eqn:Hslot.
  - rewrite (slot_step_filled f id e s ctx h Hslot) in H. injection H as <- <- <-. eauto.
  - destruct (factory_result E f id e) as [r |] eqn:Hfac.
    + destruct (slot_step_empty f id e s ctx r Hslot Hfac) as (s1 & evs1 & Hstep & Hs1 & _).
      rewrite Hstep in H. destruct r as [h |]; [| discriminate].
      injection H as <- <- <-. eauto.
    + exfalso. unfold slot in Hslot. unfold factory_result in Hfac.
      destruct (ctxs s !! ctx) as [cx |] eqn:Hcx; [| discriminate].
      destruct f; [| discriminate]. simpl in H. unfold shash_slot in H. rewrite Hcx in H.
      destruct (array_get (desc cx) id) as [[d |] |]; try discriminate.
      destruct (alloc_shash_desc E id e); discriminate.
  - exfalso. unfold slot in Hslot.
    destruct f; simpl in H; [unfold shash_slot in H | unfold aead_slot in H];
      destruct (ctxs s !! ctx) as [cx |]; try discriminate.
    + destruct (array_get (desc cx) id) as [[d |] |]; discriminate.
    + destruct (array_get (ccmaes cx) id) as [[d |] |]; discriminate.
Qed.

(** X1: whatever step a lookup returns a context with ([NULL] is the
    failure), the slot of the requested identifier holds a handle in
    that context. *)
Theorem lookup_returns_populated (f : family) (id : Z) (e : reply) (s s' : kstate)
    (k : ctx_find_pc) (c : Z) (evs : list event) :
  family_find E ncpus f id e s k = Next (s', CfRet c, evs) →
  c ≠ NULL →
  ∃ h, slot f s' c id = Some (Some h).
Proof.
  intros H Hnn. destruct k as [| kf | kr |].
  - exfalso. destruct f; simpl in H;
      match type of H with context [if ?b then _ else _] => destruct b end;
      congruence.
  - assert (Hkf : (∃ c0, kf = FindRet c0) ∨ ∀ c0, kf ≠ FindRet c0)
      by (destruct kf; eauto; right; discriminate).
    destruct Hkf as [[c0 ->] | Hnot].
    + apply slot_step_returns in H as [_ Hslot]. exact Hslot.
    + exfalso.
      assert (Hin : in_find (cifsd_find_crypto_ctx E ncpus e s kf) = Next (s', CfRet c, evs)).
      { destruct f, kf; try exact H; exfalso; exact (Hnot _ eq_refl). }
      destruct (cifsd_find_crypto_ctx E ncpus e s kf) as [[[s1 k1] evs1] | | |];
        discriminate.
  - exfalso. destruct f, kr; simpl in H;
      repeat match type of H with
             | context [if ?b then _ else _] => destruct b
             | context [match ctx_free ?a ?b ?c with _ => _ end] => destruct (ctx_free a b c) as [[? ?] |]
             end; simpl in H; congruence.
  - destruct f; discriminate.
Qed.

(** X2: a step of any task leaves every slot of every live context as it
    is, with two exceptions: a lookup may write the empty slot it was
    asked for in the context it has acquired, and a release may free the
    whole context it holds.  A populated slot is never emptied or
    replaced. *)
Theorem slots_only_filled (e : reply) (s s' : kstate) (t t' : task) (evs : list event)
    (f : family) (c id : Z) (v : option handle) :
  reply_ok e s = true →
  task_step E ncpus e s t = Next (s', t', evs) →
  slot f s c id = Some v →
  slot f s' c id = Some v
  ∨ (v = None ∧ t = lookup_task f id (CfFind (FindRet c))
     ∧ ∃ h, slot f s' c id = Some h)
  ∨ (ctxs s' !! c = None ∧ c ∈ holds t).
Proof.
  intros Hok H Hslot.
  assert (Hlive : live s c = 1%nat).
  { unfold slot in Hslot. unfold live. destruct (ctxs s !! c); [reflexivity | discriminate]. }
  assert (Hfind : ∀ k s1 k1 evs1,
            cifsd_find_crypto_ctx E ncpus e s k = Next (s1, k1, evs1) →
            slot f s1 c id = Some v).
  { intros k s1 k1 evs1 Hf. rewrite <- Hslot. destruct k; simpl in Hf.
    - destruct (idle s); [destruct (avail s >? ncpus) |]; injection Hf as <- <- <-; reflexivity.
    - destruct (idle s); [discriminate |]. injection Hf as <- <- <-. reflexivity.
    - unfold ctx_alloc in Hf. destruct (ctx_alloc_ret e =? NULL) eqn:Hz; simpl in Hf.
      + injection Hf as <- <- <-. reflexivity.
      + rewrite Hz in Hf. injection Hf as <- <- <-. apply Z.eqb_neq in Hz.
        pose proof (reply_ok_fresh e s Hok Hz) as Hfresh.
        unfold slot. simpl. rewrite lookup_insert_ne; [reflexivity |].
        intros Heq. rewrite Heq in Hfresh. lia.
    - injection Hf as <- <- <-. reflexivity.
    - discriminate. }
  assert (Hrel : ∀ k s1 k1 evs1,
            cifsd_release_crypto_ctx E ncpus s k = Next (s1, k1, evs1) →
            slot f s1 c id = Some v ∨ (ctxs s1 !! c = None ∧ c ∈ rel_holds k)).
  { intros k s1 k1 evs1 Hr. destruct k; simpl in Hr.
    - destruct (ctx =? NULL); [| destruct (avail s <=? ncpus)];
        injection Hr as <- <- <-; left; exact Hslot.
    - injection Hr as <- <- <-. left; exact Hslot.
    - destruct (ctx_free E ctx s) as [[s2 evs2] |] eqn:Hfree; [| discriminate].
      injection Hr as <- <- <-. apply ctx_free_frees in Hfree as [-> _].
      destruct (Z.eq_dec ctx c) as [-> | Hne].
      + right. simpl. rewrite lookup_delete_eq. split; [reflexivity | left].
      + left. rewrite <- Hslot. unfold slot. simpl.
        rewrite lookup_delete_ne by exact Hne. reflexivity.
    - discriminate. }
  assert (Hlookup : ∀ f0 id0 k s1 k1 evs1,
            family_find E ncpus f0 id0 e s k = Next (s1, k1, evs1) →
            slot f s1 c id = Some v
            ∨ (v = None ∧ lookup_task f0 id0 k = lookup_task f id (CfFind (FindRet c))
               ∧ ∃ h, slot f s1 c id = Some h)
            ∨ (ctxs s1 !! c = None ∧ c ∈ holds (lookup_task f0 id0 k))).
  { intros f0 id0 k s1 k1 evs1 Hl. destruct k as [| kf | kr |].
    - left. rewrite <- Hslot. destruct f0; simpl in Hl;
        match type of Hl with context [if ?b then _ else _] => destruct b end;
        injection Hl as <- <- <-; reflexivity.
    - assert (Hkf : (∃ c0, kf = FindRet c0) ∨ ∀ c0, kf ≠ FindRet c0)
        by (destruct kf; eauto; right; discriminate).
      destruct Hkf as [[c0 ->] | Hnot].
      + destruct (slot_step_frame f0 id0 e s s1 c0 k1 evs1 f c id Hl)
          as [Heq | (-> & -> & -> & Hempty & h & Hh)].
        * left. rewrite Heq. exact Hslot.
        * right. left. rewrite Hslot in Hempty. injection Hempty as ->. eauto.
      + left.
        assert (Hin : in_find (cifsd_find_crypto_ctx E ncpus e s kf) = Next (s1, k1, evs1)).
        { destruct f0, kf; try exact Hl; exfalso; exact (Hnot _ eq_refl). }
        destruct (cifsd_find_crypto_ctx E ncpus e s kf) as [[[s2 k2] evs2] | | |] eqn:Hf;
          try discriminate.
        simpl in Hin. injection Hin as <- <- <-. eapply Hfind. exact Hf.
    - assert (Hkr : kr = RelRet ∨ kr ≠ RelRet)
        by (destruct kr; auto; right; discriminate).
      destruct Hkr as [-> | Hnot].
      + left. rewrite <- Hslot. destruct f0; simpl in Hl; injection Hl as <- <- <-; reflexivity.
      + assert (Hin : in_release (cifsd_release_crypto_ctx E ncpus s kr)
                      = Next (s1, k1, evs1)).
        { destruct f0, kr; try exact Hl; contradiction. }
        destruct (cifsd_release_crypto_ctx E ncpus s kr) as [[[s2 k2] evs2] | | |] eqn:Hr;
          try discriminate.
        simpl in Hin. injection Hin as <- <- <-.
        destruct (Hrel kr s2 k2 evs2 Hr) as [? | [? ?]]; [auto |].
        right. right. split; [assumption |]. destruct f0; assumption.
    - destruct f0; discriminate. }
  destruct t as [k | k | id0 k | id0 k]; simpl in H.
  - destruct (cifsd_find_crypto_ctx E ncpus e s k) as [[[s1 k1] evs1] | | |] eqn:Hf;
      try discriminate.
    injection H as <- <- <-. left. eapply Hfind. exact Hf.
  - destruct (cifsd_release_crypto_ctx E ncpus s k) as [[[s1 k1] evs1] | | |] eqn:Hr;
      try discriminate.
    injection H as <- <- <-. destruct (Hrel k s1 k1 evs1 Hr); auto.
  - destruct (____crypto_shash_ctx_find E ncpus id0 e s k) as [[[s1 k1] evs1] | | |] eqn:Hl;
      try discriminate.
    injection H as <- <- <-. exact (Hlookup Shash id0 k s1 k1 evs1 Hl).
  - destruct (____crypto_aead_ctx_find E ncpus id0 e s k) as [[[s1 k1] evs1] | | |] eqn:Hl;
      try discriminate.
    injection H as <- <- <-. exact (Hlookup Aead id0 k s1 k1 evs1 Hl).
Qed.

(** X3: a release that pools (counter in range and within the bound)
    followed by an acquire hands back the very context that was released
    and leaves the pool exactly as it was before the release: the idle
    set is used last in, first out. *)
Theorem release_then_find (e : reply) (s : kstate) (ctx : Z) :
  ctx ≠ NULL → counter_in_range s → avail s <= ncpus →
  ∃ s1, cifsd_release_crypto_ctx E ncpus s (RelEntry ctx) = Next (s1, RelWake, [])
    ∧ cifsd_release_crypto_ctx E ncpus s1 RelWake = Next (s1, RelRet, [EvWakeUp])
    ∧ cifsd_find_crypto_ctx E ncpus e s1 FindLock = Next (s, FindRet ctx, []).
Proof.
  intros Hnn _ Hle. exists (set_idle (ctx :: idle s) s).
  apply Z.eqb_neq in Hnn. unfold cifsd_release_crypto_ctx, cifsd_find_crypto_ctx.
  rewrite Hnn. destruct (Z.leb_spec (avail s) ncpus); [| lia].
  repeat split. destruct s as [[a l] m]. reflexivity.
Qed.

(** X4: an acquire served from the idle set followed by the release of
    that context, on a counter in range: within the bound the pool is
    exactly as before; over the bound the pair has shrunk the pool by
    that context (off the idle set, off the counter, its handles handed
    back and the context freed). *)
Theorem find_then_release (e : reply) (s : kstate) (ctx : Z) (rest : list Z)
    (cx : cifsd_crypto_ctx) :
  idle s = ctx :: rest → ctx ≠ NULL → ctxs s !! ctx = Some cx →
  counter_in_range s →
  ∃ s1, cifsd_find_crypto_ctx E ncpus e s FindLock = Next (s1, FindRet ctx, [])
    ∧ (avail s <= ncpus →
       cifsd_release_crypto_ctx E ncpus s1 (RelEntry ctx) = Next (s, RelWake, []))
    ∧ (ncpus < avail s →
       ∃ s2 s3 evs,
         cifsd_release_crypto_ctx E ncpus s1 (RelEntry ctx) = Next (s2, RelFree ctx, [])
         ∧ cifsd_release_crypto_ctx E ncpus s2 (RelFree ctx) = Next (s3, RelRet, evs)
         ∧ idle s3 = rest ∧ avail s3 = avail s - 1
         ∧ ctxs s3 = delete ctx (ctxs s) ∧ ctx_frees evs = [ctx]
         ∧ evs = handed_back E ctx cx
         ∧ shash_frees evs = map shash_tfm (shash_handles E cx)
         ∧ kfrees evs = map shash_addr (shash_handles E cx)
         ∧ aead_frees evs = aead_handles E cx).
Proof.
  intros Hidle Hnn Hcx _. exists (set_idle rest s).
  apply Z.eqb_neq in Hnn. unfold cifsd_find_crypto_ctx. rewrite Hidle.
  split; [reflexivity |]. split; intros Hcmp.
  - unfold cifsd_release_crypto_ctx. rewrite Hnn.
    change (avail (set_idle rest s)) with (avail s).
    destruct (Z.leb_spec (avail s) ncpus); [| lia].
    destruct s as [[a l] m]. unfold idle, avail, set_idle in *. simpl in *.
    subst l. reflexivity.
  - set (s2 := set_avail (avail s - 1) (set_idle rest s)).
    destruct (ctx_free_events ctx s2 cx Hcx) as (evs & Hfree & H1 & H2 & H3 & H4 & _).
    exists s2, (set_ctxs (delete ctx (ctxs s2)) s2), evs.
    split.
    { unfold cifsd_release_crypto_ctx. rewrite Hnn.
      change (avail (set_idle rest s)) with (avail s).
      destruct (Z.leb_spec (avail s) ncpus); [lia | reflexivity]. }
    split; [unfold cifsd_release_crypto_ctx; rewrite Hfree; reflexivity |].
    assert (Ht : evs = handed_back E ctx cx)
      by (pose proof (ctx_free_trace ctx s2 cx Hcx); congruence).
    repeat split; assumption.
Qed.

(** X5: a caller in [wait_event] with the idle set empty is blocked.  On
    a counter in range, a release that pools lets it go on, and it then
    takes exactly the released context.  A release that destroys does
    not: the waiter is still blocked after it, although the counter has
    gone down by one. *)
Theorem waiter_needs_pooling_release (e : reply) (s : kstate) (ctx : Z) :
  idle s = [] → ctx ≠ NULL → is_Some (ctxs s !! ctx) → counter_in_range s →
  cifsd_find_crypto_ctx E ncpus e s FindWait = Blocked
  ∧ (avail s <= ncpus →
     ∃ s1, cifsd_release_crypto_ctx E ncpus s (RelEntry ctx) = Next (s1, RelWake, [])
       ∧ cifsd_find_crypto_ctx E ncpus e s1 FindWait = Next (s1, FindLock, [])
       ∧ cifsd_find_crypto_ctx E ncpus e s1 FindLock = Next (s, FindRet ctx, []))
  ∧ (ncpus < avail s →
     ∃ s1 s2 evs,
       cifsd_release_crypto_ctx E ncpus s (RelEntry ctx) = Next (s1, RelFree ctx, [])
       ∧ cifsd_release_crypto_ctx E ncpus s1 (RelFree ctx) = Next (s2, RelRet, evs)
       ∧ avail s2 = avail s - 1
       ∧ cifsd_find_crypto_ctx E ncpus e s1 FindWait = Blocked
       ∧ cifsd_find_crypto_ctx E ncpus e s2 FindWait = Blocked).
Proof.
  intros Hidle Hnn [cx Hcx] _. apply Z.eqb_neq in Hnn.
  split; [unfold cifsd_find_crypto_ctx; rewrite Hidle; reflexivity |].
  split; intros Hcmp.
  - exists (set_idle (ctx :: idle s) s).
    unfold cifsd_release_crypto_ctx, cifsd_find_crypto_ctx. rewrite Hnn.
    destruct (Z.leb_spec (avail s) ncpus); [| lia].
    repeat split. simpl. rewrite Hidle.
    destruct s as [[a l] m]. unfold idle, avail, set_idle in *. simpl in *.
    subst l. reflexivity.
  - unfold cifsd_release_crypto_ctx, cifsd_find_crypto_ctx. rewrite Hnn.
    destruct (Z.leb_spec (avail s) ncpus); [lia |].
    eexists _, _, _. split; [reflexivity |].
    unfold ctx_free. simpl. rewrite Hcx. split; [reflexivity |].
    split; [reflexivity |].
    destruct s as [[a l] m]. unfold idle in *. simpl in *. subst l.
    split; reflexivity.
Qed.

(** X6: [cifsd_crypto_create] that obtains a new context, followed by
    [cifsd_crypto_destroy]: the seed context is the one context freed,
    the live contexts are those from before the create and the idle set
    is empty; the counter is left at 1. *)
Theorem create_then_destroy (e : reply) (s : kstate) :
  ctx_alloc_ret e ≠ NULL → ctxs s !! ctx_alloc_ret e = None →
  ∃ s1 evs1 s2 evs2,
    cifsd_crypto_create E e s = (0, s1, evs1)
    ∧ cifsd_crypto_destroy E s1 = Some (s2, evs2)
    ∧ ctxs s2 = ctxs s ∧ idle s2 = [] ∧ avail s2 = 1
    ∧ ctx_frees evs2 = [ctx_alloc_ret e].
Proof.
  intros Hnn Hfresh. apply Z.eqb_neq in Hnn.
  set (r := ctx_alloc_ret e) in *.
  set (m1 := <[r := cifsd_alloc_ctx E]> (ctxs s)).
  destruct (ctx_free E r (mk_kstate (mk_ctx_list 1 []) m1)) as [[s2 evs2] |] eqn:Hfree.
  2: { unfold ctx_free in Hfree. simpl in Hfree. subst m1.
       rewrite lookup_insert_eq in Hfree. discriminate. }
  exists (mk_kstate (mk_ctx_list 1 [r]) m1), [EvCtxAlloc r], s2, (evs2 ++ []).
  split.
  { unfold cifsd_crypto_create, ctx_alloc. fold r. simpl. rewrite Hnn. simpl.
    rewrite Hnn. reflexivity. }
  split.
  { unfold cifsd_crypto_destroy. simpl. unfold set_idle. simpl.
    unfold avail. simpl. rewrite Hfree. reflexivity. }
  apply ctx_free_frees in Hfree as [-> Hfrees]. simpl.
  split; [apply delete_insert_id; exact Hfresh |].
  rewrite app_nil_r. auto.
Qed.

(** With a bound the kernel can report, every reachable state has its
    counter in range. *)
Lemma reachable_counter_in_range (sy : system) :
  0 <= ncpus → ncpus + 1 < INT_MAX → reachable E ncpus sy →
  counter_in_range (kern sy).
Proof.
  intros Hpos Hmax Hreach. destruct (reachable_owned sy Hreach) as (_ & _ & H0).
  destruct Hreach as (e0 & acts & sy0 & Hinit & Hrun).
  apply init_pool in Hinit as [H1 _].
  assert (Hb : avail (kern sy) <= ncpus + 1) by (apply (run_bound acts sy0 sy Hrun); lia).
  unfold counter_in_range. lia.
Qed.

Lemma occ_in_tasks (c : Z) (l : list task) :
  occ c (concat (map holds l)) = sum_list_with (λ t, occ c (holds t)) l.
Proof.
  induction l as [| t l IH]; simpl; [reflexivity |].
  rewrite occ_app, IH. reflexivity.
Qed.

Lemma occ_owners (sy : system) (c : Z) :
  sys_owned sy → occ c (owners sy) = live (kern sy) c.
Proof.
  intros [Hocc _]. unfold owners, in_tasks.
  rewrite !occ_app, occ_in_tasks, <- (Hocc c). lia.
Qed.

Lemma occ_elem_of (c : Z) (l : list Z) : c ∈ l ↔ (0 < occ c l)%nat.
Proof.
  rewrite list_elem_of_In. unfold occ.
  rewrite (count_occ_In Z.eq_dec). unfold gt. reflexivity.
Qed.

Lemma live_is_Some (s : kstate) (c : Z) : is_Some (ctxs s !! c) ↔ live s c = 1%nat.
Proof.
  unfold live. destruct (ctxs s !! c); split; intros H; eauto; try discriminate.
  destruct H as [x Hx]. discriminate.
Qed.

(** X7: in every reachable state no context has two owners: the idle
    set, the callers and the tasks hold pairwise different contexts, each
    at most once; and the contexts they hold are exactly the live ones,
    so none is leaked and none is used after it was freed. *)
Theorem exclusive_ownership (sy : system) :
  reachable E ncpus sy →
  NoDup (owners sy) ∧ ∀ c, c ∈ owners sy ↔ is_Some (ctxs (kern sy) !! c).
Proof.
  intros Hreach. destruct (reachable_owned sy Hreach) as [Hown _].
  assert (Hlive1 : ∀ c, (live (kern sy) c <= 1)%nat)
    by (intros c; unfold live; destruct (ctxs (kern sy) !! c); lia).
  split.
  - apply NoDup_ListNoDup, (NoDup_count_occ Z.eq_dec). intros c.
    pose proof (occ_owners sy c Hown) as Hc. specialize (Hlive1 c).
    unfold occ in Hc. lia.
  - intros c. rewrite occ_elem_of, live_is_Some, (occ_owners sy c Hown).
    specialize (Hlive1 c). lia.
Qed.

(** X8: in every reachable state the counter is the number of contexts
    that are idle, with callers or in the hands of tasks that have not
    taken them off the counter, plus the reservations of the acquires
    that are constructing one.  So it is never negative, and at most
    bound plus one contexts are idle or with callers. *)
Theorem counter_counts_contexts (sy : system) :
  0 <= ncpus → reachable E ncpus sy →
  avail (kern sy)
  = Z.of_nat (length (idle (kern sy)) + length (out sy)
              + sum_list_with counted (tasks sy))
  ∧ 0 <= avail (kern sy)
  ∧ Z.of_nat (length (idle (kern sy)) + length (out sy)) <= ncpus + 1.
Proof.
  intros Hpos Hreach. destruct (reachable_owned sy Hreach) as [[_ Hcnt] _].
  destruct Hreach as (e0 & acts & sy0 & Hinit & Hrun).
  apply init_pool in Hinit as [H1 _].
  assert (Hb : avail (kern sy) <= ncpus + 1) by (apply (run_bound acts sy0 sy Hrun); lia).
  split; [exact Hcnt |]. lia.
Qed.

(** X9: [cifsd_crypto_destroy] in a reachable state runs to its end: it
    destroys the idle contexts, each once and in the order of the idle
    set (the handles in their slots are handed back, then the context is
    freed), and leaves live exactly the contexts that callers and tasks
    hold. *)
Theorem destroy_of_reachable (sy : system) :
  reachable E ncpus sy →
  ∃ s' evs, cifsd_crypto_destroy E (kern sy) = Some (s', evs)
    ∧ idle s' = [] ∧ avail s' = avail (kern sy)
    ∧ ctx_frees evs = idle (kern sy)
    ∧ length (contexts_at (kern sy) (idle (kern sy))) = length (idle (kern sy))
    ∧ evs = concat (zip_with (handed_back E) (idle (kern sy))
                      (contexts_at (kern sy) (idle (kern sy))))
    ∧ shash_frees evs
      = flat_map (λ cx, map shash_tfm (shash_handles E cx))
          (contexts_at (kern sy) (idle (kern sy)))
    ∧ kfrees evs
      = flat_map (λ cx, map shash_addr (shash_handles E cx))
          (contexts_at (kern sy) (idle (kern sy)))
    ∧ aead_frees evs
      = flat_map (aead_handles E) (contexts_at (kern sy) (idle (kern sy)))
    ∧ ∀ c, is_Some (ctxs s' !! c) ↔ c ∈ out sy ++ in_tasks sy.
Proof.
  intros Hreach. destruct (reachable_owned sy Hreach) as (Hown & [Hnd Hlive] & _).
  destruct (destroy_loop_spec (idle (kern sy)) (kern sy) Hnd Hlive)
    as (s' & evs & Hloop & Hav & Hidle & Hdead & Hkeep & Hev).
  destruct (destroy_loop_frees (idle (kern sy)) (kern sy) s' evs Hnd Hloop)
    as (H1 & H2 & H3).
  assert (Hlen : length (contexts_at (kern sy) (idle (kern sy)))
                 = length (idle (kern sy))).
  { clear - Hlive. unfold contexts_at.
    induction (idle (kern sy)) as [| c l IH]; [reflexivity |].
    cbn. destruct (Hlive c) as [cx ->]; [left |]. cbn in *.
    rewrite IH; [reflexivity |]. intros x Hx. apply Hlive. right. exact Hx. }
  exists s', evs. split; [exact Hloop |].
  split; [rewrite Hidle; destruct (idle (kern sy)); reflexivity |].
  split; [exact Hav |]. split; [exact Hev |].
  split; [exact Hlen |].
  split; [exact (destroy_loop_trace (idle (kern sy)) (kern sy) s' evs Hnd Hloop) |].
  split; [exact H1 |]. split; [exact H2 |]. split; [exact H3 |].
  intros c. pose proof (occ_owners sy c Hown) as Hc. unfold owners in Hc.
  rewrite occ_app in Hc.
  assert (Hlive1 : (live (kern sy) c <= 1)%nat)
    by (unfold live; destruct (ctxs (kern sy) !! c); lia).
  rewrite (occ_elem_of c (out sy ++ in_tasks sy)).
  destruct (decide (c ∈ idle (kern sy))) as [Hin | Hnin].
  - rewrite (Hdead c Hin). apply occ_elem_of in Hin.
    split; [intros [x Hx]; discriminate | lia].
  - rewrite (Hkeep c Hnin), live_is_Some.
    assert (occ c (idle (kern sy)) = 0%nat).
    { destruct (occ c (idle (kern sy))) eqn:Ho; [reflexivity |].
      exfalso. apply Hnin, occ_elem_of. lia. }
    lia.
Qed.

Lemma task_step_lookup (f : family) (id : Z) (e : reply) (s : kstate) (k : ctx_find_pc) :
  task_step E ncpus e s (lookup_task f id k)
  = match family_find E ncpus f id e s k with
    | Next (s', k', evs) => Next (s', lookup_task f id k', evs)
    | Blocked => Blocked
    | Returned => Returned
    | Fault => Fault
    end.
Proof. destruct f; reflexivity. Qed.

(** A lookup that runs on its own from a pool whose first idle context
    is [c]: it returns [c], and calls the Factory only if the slot is
    empty. *)
Lemma lookup_run_idle (f : family) (id : Z) (e0 e1 e2 : reply) (s : kstate)
    (c : Z) (rest : list Z) (v : option handle) (h : handle) :
  0 <= id < family_max E f →
  idle s = c :: rest →
  slot f s c id = Some v →
  (v = None → factory_result E f id e2 = Some (Some h)) →
  (∀ h', v = Some h' → h' = h) →
  ∃ s1 evs1,
    task_run E ncpus [e0; e1; e2] s (lookup_task f id CfEntry)
    = Next (s1, lookup_task f id (CfRet c), evs1)
    ∧ slot f s1 c id = Some (Some h)
    ∧ idle s1 = rest ∧ avail s1 = avail s
    ∧ factory_calls evs1 = match v with Some _ => 0%nat | None => 1%nat end
    ∧ (v ≠ None → evs1 = []).
Proof.
  intros [_ Hlt] Hidle Hslot Hfac Hcached.
  assert (H0 : family_find E ncpus f id e0 s CfEntry = Next (s, CfFind FindLock, [])).
  { destruct f; simpl in *;
      match goal with |- context [?a >=? ?b] => destruct (Z.geb_spec a b) end;
      (lia || reflexivity). }
  assert (H1 : family_find E ncpus f id e1 s (CfFind FindLock)
               = Next (set_idle rest s, CfFind (FindRet c), [])).
  { destruct f; simpl; rewrite Hidle; reflexivity. }
  assert (Hslot' : slot f (set_idle rest s) c id = Some v) by exact Hslot.
  cbn [task_run]. rewrite task_step_lookup, H0, task_step_lookup, H1, task_step_lookup.
  destruct v as [h' |].
  - rewrite (Hcached h' eq_refl) in Hslot'.
    rewrite (slot_step_filled f id e2 _ c h Hslot').
    eexists _, _. split; [reflexivity |]. auto 10.
  - destruct (slot_step_empty f id e2 _ c (Some h) Hslot' (Hfac eq_refl))
      as (s1 & evs1 & Hstep & Hs1 & Hlist & Hcalls).
    rewrite Hstep. eexists _, _. split; [reflexivity |].
    split; [exact Hs1 |].
    unfold idle, avail. rewrite Hlist. simpl. rewrite app_nil_r.
    repeat split; [exact Hcalls | congruence].
Qed.

(** X10: a handle outlives the release of its context.  From a pool
    with its counter in range and within its bound whose first idle
    context [c] has the slot empty: a
    lookup returns [c] with a new handle [h] after one Factory call; the
    caller releases [c]; the next lookup of the same identifier returns
    [c] again, with [h] still in the slot and without any call to the
    Factory or to the allocator. *)
Theorem handle_survives_release (f : family) (id : Z) (e0 e1 e2 e3 e4 e5 e6 e7 : reply)
    (s : kstate) (c : Z) (rest : list Z) (h : handle) :
  0 <= id < family_max E f →
  idle s = c :: rest → c ≠ NULL → counter_in_range s → avail s <= ncpus →
  slot f s c id = Some None →
  factory_result E f id e2 = Some (Some h) →
  ∃ s1 evs1 s2 s3,
    task_run E ncpus [e0; e1; e2] s (lookup_task f id CfEntry)
    = Next (s1, lookup_task f id (CfRet c), evs1)
    ∧ factory_calls evs1 = 1%nat
    ∧ task_run E ncpus [e3; e4] s1 (TRelease (RelEntry c))
      = Next (s2, TRelease RelRet, [EvWakeUp])
    ∧ idle s2 = c :: rest
    ∧ task_run E ncpus [e5; e6; e7] s2 (lookup_task f id CfEntry)
      = Next (s3, lookup_task f id (CfRet c), [])
    ∧ slot f s3 c id = Some (Some h)
    ∧ idle s3 = rest ∧ avail s3 = avail s.
Proof.
  intros Hid Hidle Hnn _ Hle Hslot Hfac.
  destruct (lookup_run_idle f id e0 e1 e2 s c rest None h Hid Hidle Hslot)
    as (s1 & evs1 & Hrun1 & Hslot1 & Hidle1 & Hav1 & Hcalls1 & _); [auto | discriminate |].
  exists s1, evs1, (set_idle (c :: idle s1) s1).
  assert (Hrel : task_run E ncpus [e3; e4] s1 (TRelease (RelEntry c))
                 = Next (set_idle (c :: idle s1) s1, TRelease RelRet, [EvWakeUp])).
  { apply Z.eqb_neq in Hnn. cbn [task_run task_step cifsd_release_crypto_ctx].
    rewrite Hnn. destruct (Z.leb_spec (avail s1) ncpus); [reflexivity | lia]. }
  destruct (lookup_run_idle f id e5 e6 e7 (set_idle (c :: idle s1) s1) c rest
              (Some h) h Hid)
    as (s3 & evs3 & Hrun3 & Hslot3 & Hidle3 & Hav3 & _ & Hnil).
  { unfold idle. simpl. fold (idle s1). rewrite Hidle1. reflexivity. }
  { exact Hslot1. }
  { discriminate. }
  { intros h' [= ->]. reflexivity. }
  specialize (Hnil ltac:(discriminate)).
  exists s3. subst evs3. rewrite Hav3.
  repeat split; try assumption.
  unfold idle. simpl. fold (idle s1). rewrite Hidle1. reflexivity.
Qed.

(** *** The transforms of the provider *)

Lemma transforms_given_app (l1 l2 : list event) :
  transforms_given (l1 ++ l2) = (transforms_given l1 + transforms_given l2)%nat.
Proof. apply sum_list_with_app. Qed.

Lemma transforms_freed_app (l1 l2 : list event) :
  transforms_freed (l1 ++ l2) = (transforms_freed l1 + transforms_freed l2)%nat.
Proof. apply sum_list_with_app. Qed.


Lemma alloc_shash_desc_balance (id : Z) (e : reply) (r : option shash_desc)
    (evs : list event) :
  alloc_shash_desc E id e = Some (r, evs) →
  transforms_given evs
  = (transforms_freed evs + match r with Some _ => 1 | None => 0 end)%nat.
Proof.
  unfold alloc_shash_desc. destruct (shash_name E id) as [n |]; simpl; [| discriminate].
  destruct (IS_ERR (crypto_alloc_ret e)) eqn:Herr.
  - intros [= <- <-]. unfold transforms_given, transforms_freed. simpl.
    rewrite Herr. reflexivity.
  - destruct (crypto_alloc_ret e =? NULL); [discriminate |].
    destruct (kzalloc_ret e =? NULL); intros [= <- <-];
      unfold transforms_given, transforms_freed; simpl; rewrite Herr; reflexivity.
Qed.

Lemma alloc_aead_balance (id : Z) (e : reply) :
  provider_ok e →
  transforms_given (snd (alloc_aead E id e))
  = (transforms_freed (snd (alloc_aead E id e))
     + match fst (alloc_aead E id e) with Some _ => 1 | None => 0 end)%nat.
Proof.
  intros Hprov. unfold alloc_aead. destruct (aead_name E id) as [n |]; simpl; [| reflexivity].
  destruct (IS_ERR (crypto_alloc_ret e)) eqn:Herr.
  - unfold transforms_given, transforms_freed. simpl. rewrite Herr. reflexivity.
  - destruct (crypto_alloc_ret e =? NULL) eqn:Hz.
    + exfalso. apply Z.eqb_eq in Hz. destruct Hprov as [? | ?]; [congruence |].
      unfold NULL in Hz. lia.
    + unfold transforms_given, transforms_freed. simpl. rewrite Herr. reflexivity.
Qed.

Lemma free_shash_freed (l : list (option shash_desc)) :
  transforms_freed (flat_map free_shash l) = filled l
  ∧ transforms_given (flat_map free_shash l) = 0%nat.
Proof.
  unfold transforms_freed, transforms_given, filled.
  induction l as [| [d |] l [IH1 IH2]]; simpl; auto.
Qed.

Lemma free_aead_freed (l : list (option Z)) :
  transforms_freed (flat_map free_aead l) = filled l
  ∧ transforms_given (flat_map free_aead l) = 0%nat.
Proof.
  unfold transforms_freed, transforms_given, filled.
  induction l as [| [d |] l [IH1 IH2]]; simpl; auto.
Qed.

(** X12: [ctx_free] takes back every handle of the context, whatever
    subset of the slots is populated: the transform of every populated
    slot of either family is handed back to the provider and the block
    of every keyed-hash handle to the allocator, each once and in the
    order of the slots; the provider is asked for nothing; then the
    context itself is freed; [ctx_list] and the other contexts are not
    touched. *)
Theorem ctx_free_takes_all (ctx : Z) (s s' : kstate) (evs : list event) :
  ctx_free E ctx s = Some (s', evs) →
  ∃ cx, ctxs s !! ctx = Some cx
    ∧ evs = handed_back E ctx cx
    ∧ shash_frees evs = map shash_tfm (shash_handles E cx)
    ∧ kfrees evs = map shash_addr (shash_handles E cx)
    ∧ aead_frees evs = aead_handles E cx
    ∧ transforms_freed evs = ctx_handles E cx
    ∧ transforms_given evs = 0%nat
    ∧ ctx_frees evs = [ctx]
    ∧ last evs = Some (EvCtxFree ctx)
    ∧ ctx_list s' = ctx_list s
    ∧ ctxs s' = delete ctx (ctxs s).
Proof.
  intros H.
  destruct (ctxs s !! ctx) as [cx |] eqn:Hcx;
    [| unfold ctx_free in H; rewrite Hcx in H; discriminate].
  destruct (ctx_free_events ctx s cx Hcx) as (evs0 & Hfree & H1 & H2 & H3 & H4 & H5).
  assert (Ht : evs0 = handed_back E ctx cx)
    by (pose proof (ctx_free_trace ctx s cx Hcx); congruence).
  rewrite Hfree in H. injection H as <- <-.
  exists cx. split; [reflexivity |]. split; [exact Ht |].
  split; [exact H1 |]. split; [exact H2 |]. split; [exact H3 |].
  assert (Hcount : transforms_freed evs0 = ctx_handles E cx
                   ∧ transforms_given evs0 = 0%nat).
  { unfold ctx_free in Hfree. rewrite Hcx in Hfree. injection Hfree as <-.
    rewrite !transforms_freed_app, !transforms_given_app.
    destruct (free_shash_freed (take (Z.to_nat (CRYPTO_SHASH_MAX E)) (desc cx)))
      as [-> ->].
    destruct (free_aead_freed (take (Z.to_nat (CRYPTO_AEAD_MAX E)) (ccmaes cx)))
      as [-> ->].
    unfold ctx_handles, transforms_freed. simpl. split; lia. }
  destruct Hcount as [Hc1 Hc2]. auto 10.
Qed.

Lemma ctx_free_balance (ctx : Z) (s s' : kstate) (evs : list event) (cx : cifsd_crypto_ctx) :
  ctxs s !! ctx = Some cx →
  ctx_free E ctx s = Some (s', evs) →
  transforms_freed evs = ctx_handles E cx ∧ transforms_given evs = 0%nat.
Proof.
  intros Hcx H. unfold ctx_free in H. rewrite Hcx in H. injection H as _ <-.
  rewrite !transforms_freed_app, !transforms_given_app.
  destruct (free_shash_freed (take (Z.to_nat (CRYPTO_SHASH_MAX E)) (desc cx))) as [-> ->].
  destruct (free_aead_freed (take (Z.to_nat (CRYPTO_AEAD_MAX E)) (ccmaes cx))) as [-> ->].
  unfold ctx_handles, transforms_freed. simpl. split; lia.
Qed.

Lemma filled_insert {A : Type} (l : list (option A)) (i : nat) (x : option A) :
  l !! i = Some None →
  filled (<[i := x]> l) = (filled l + match x with Some _ => 1 | None => 0 end)%nat.
Proof.
  unfold filled. revert i. induction l as [| y l IH]; intros [| i] Hi; simpl in *;
    try discriminate.
  - injection Hi as ->. lia.
  - rewrite (IH i Hi). lia.
Qed.

Lemma filled_array_set {A : Type} (a : list (option A)) (n : nat) (id : Z) (x : option A) :
  length a = n →
  array_get a id = Some None →
  filled (take n (array_set a id x))
  = (filled (take n a) + match x with Some _ => 1 | None => 0 end)%nat.
Proof.
  unfold array_get, array_set. intros Hlen Hget.
  destruct (id <? 0); [discriminate |].
  rewrite !take_ge by (rewrite ?length_insert; lia).
  apply filled_insert. exact Hget.
Qed.

Lemma filled_replicate {A : Type} (n : nat) : filled (replicate n (@None A)) = 0%nat.
Proof. unfold filled. induction n; simpl; auto. Qed.

Lemma cached_insert_fresh (s : kstate) (c : Z) (cx : cifsd_crypto_ctx) :
  ctxs s !! c = None →
  cached_handles E (set_ctxs (<[c := cx]> (ctxs s)) s)
  = (ctx_handles E cx + cached_handles E s)%nat.
Proof.
  intros Hc. unfold cached_handles. simpl.
  apply (map_fold_insert_L (λ _ cx n, (ctx_handles E cx + n)%nat)); [| exact Hc].
  intros. lia.
Qed.

Lemma cached_delete (s : kstate) (c : Z) (cx : cifsd_crypto_ctx) :
  ctxs s !! c = Some cx →
  cached_handles E s
  = (ctx_handles E cx + cached_handles E (set_ctxs (delete c (ctxs s)) s))%nat.
Proof.
  intros Hc. unfold cached_handles. simpl.
  apply (map_fold_delete_L (λ _ cx n, (ctx_handles E cx + n)%nat)); [| exact Hc].
  intros. lia.
Qed.

Lemma cached_update (s : kstate) (c : Z) (cx cx' : cifsd_crypto_ctx) :
  ctxs s !! c = Some cx →
  (cached_handles E (set_ctxs (<[c := cx']> (ctxs s)) s) + ctx_handles E cx
   = cached_handles E s + ctx_handles E cx')%nat.
Proof.
  intros Hc. rewrite (cached_delete s c cx Hc).
  assert (Heq : set_ctxs (<[c := cx']> (ctxs s)) s
                = set_ctxs (<[c := cx']> (ctxs (set_ctxs (delete c (ctxs s)) s)))
                    (set_ctxs (delete c (ctxs s)) s)).
  { unfold set_ctxs. simpl. rewrite insert_delete_eq. reflexivity. }
  rewrite Heq, cached_insert_fresh by (simpl; apply lookup_delete_eq). lia.
Qed.

Lemma reply_ok_provider (e : reply) (s : kstate) : reply_ok e s = true → provider_ok e.
Proof.
  unfold reply_ok, provider_ok. intros Hok.
  apply andb_prop in Hok as [Hok _]. apply andb_prop in Hok as [_ Hok].
  apply orb_prop in Hok as [? | Hpos]; [auto |]. right. apply Z.ltb_lt. exact Hpos.
Qed.

Lemma cifsd_alloc_ctx_empty :
  ctx_handles E (cifsd_alloc_ctx E) = 0%nat ∧ ctx_sized E (cifsd_alloc_ctx E).
Proof.
  unfold ctx_handles, ctx_sized, cifsd_alloc_ctx. simpl.
  rewrite !length_replicate, !take_replicate, !filled_replicate. auto.
Qed.

(** A step of the acquire neither gives nor frees a transform. *)
Lemma find_step_balance (e : reply) (s s' : kstate) (k k' : find_pc) (evs : list event) :
  reply_ok e s = true → ctxs_sized E s →
  cifsd_find_crypto_ctx E ncpus e s k = Next (s', k', evs) →
  ctxs_sized E s' ∧ cached_handles E s' = cached_handles E s
  ∧ transforms_given evs = 0%nat ∧ transforms_freed evs = 0%nat.
Proof.
  intros Hok Hsz H. destruct k; simpl in H.
  - destruct (idle s); [destruct (avail s >? ncpus) |]; injection H as <- <- <-; auto.
  - destruct (idle s); [discriminate |]. injection H as <- <- <-. auto.
  - unfold ctx_alloc in H. destruct (ctx_alloc_ret e =? NULL) eqn:Hz; simpl in H.
    + injection H as <- <- <-. auto.
    + rewrite Hz in H. injection H as <- <- <-. apply Z.eqb_neq in Hz.
      pose proof (reply_ok_fresh e s Hok Hz) as Hfresh.
      assert (Hnone : ctxs s !! ctx_alloc_ret e = None).
      { unfold live in Hfresh. destruct (ctxs s !! ctx_alloc_ret e); [discriminate | reflexivity]. }
      destruct cifsd_alloc_ctx_empty as [H0 Hsized].
      split; [apply map_Forall_insert_2; assumption |].
      rewrite (cached_insert_fresh s _ _ Hnone), H0. auto.
  - injection H as <- <- <-. auto.
  - discriminate.
Qed.

(** A step of the release frees the handles of the context it frees. *)
Lemma release_step_balance (s s' : kstate) (k k' : release_pc) (evs : list event) :
  ctxs_sized E s →
  cifsd_release_crypto_ctx E ncpus s k = Next (s', k', evs) →
  ctxs_sized E s' ∧ transforms_given evs = 0%nat
  ∧ cached_handles E s = (transforms_freed evs + cached_handles E s')%nat.
Proof.
  intros Hsz H. destruct k; simpl in H.
  - destruct (ctx =? NULL); [| destruct (avail s <=? ncpus)];
      injection H as <- <- <-; auto.
  - injection H as <- <- <-. auto.
  - destruct (ctx_free E ctx s) as [[s1 evs1] |] eqn:Hfree; [| discriminate].
    injection H as <- <- <-.
    destruct (ctxs s !! ctx) as [cx |] eqn:Hcx;
      [| unfold ctx_free in Hfree; rewrite Hcx in Hfree; discriminate].
    destruct (ctx_free_balance ctx s s1 evs1 cx Hcx Hfree) as [Hfr Hgv].
    apply ctx_free_frees in Hfree as [-> _].
    split; [apply map_Forall_delete; exact Hsz |].
    split; [exact Hgv |]. rewrite Hfr. apply cached_delete. exact Hcx.
  - discriminate.
Qed.

(** The slot part of a lookup keeps the transform it was given in the
    slot, or not at all. *)
Lemma slot_step_balance (f : family) (id : Z) (e : reply) (s s' : kstate) (ctx : Z)
    (k' : ctx_find_pc) (evs : list event) :
  reply_ok e s = true → ctxs_sized E s →
  family_find E ncpus f id e s (CfFind (FindRet ctx)) = Next (s', k', evs) →
  ctxs_sized E s'
  ∧ (transforms_given evs + cached_handles E s
     = transforms_freed evs + cached_handles E s')%nat.
Proof.
  intros Hok Hsz H. pose proof (reply_ok_provider e s Hok) as Hprov.
  destruct f; simpl in H.
  - unfold shash_slot in H.
    destruct (ctxs s !! ctx) as [cx |] eqn:Hcx; [| discriminate].
    destruct (Hsz ctx cx Hcx) as [Hlen1 Hlen2].
    destruct (array_get (desc cx) id) as [[d |] |] eqn:Hget; [| | discriminate].
    { injection H as <- <- <-. auto. }
    destruct (alloc_shash_desc E id e) as [[h evs0] |] eqn:Hal; [| discriminate].
    pose proof (alloc_shash_desc_balance id e h evs0 Hal) as Hbal.
    set (cx' := mk_ctx (array_set (desc cx) id h) (ccmaes cx)) in *.
    assert (Hs' : s' = set_ctxs (<[ctx := cx']> (ctxs s)) s
                  ∧ evs = evs0 ++ [EvAllocShashDesc id h])
      by (destruct h; split; congruence).
    destruct Hs' as [-> ->]. clear H.
    pose proof (cached_update s ctx cx cx' Hcx) as Hupd.
    assert (Hh : ctx_handles E cx'
                 = (ctx_handles E cx + match h with Some _ => 1 | None => 0 end)%nat).
    { unfold ctx_handles, cx'. simpl.
      rewrite (filled_array_set _ _ _ _ Hlen1 Hget). lia. }
    split.
    + apply map_Forall_insert_2; [| exact Hsz]. unfold ctx_sized, cx', array_set. simpl.
      rewrite length_insert. auto.
    + rewrite transforms_given_app, transforms_freed_app.
      unfold transforms_given at 2, transforms_freed at 2. simpl. lia.
  - unfold aead_slot in H.
    destruct (ctxs s !! ctx) as [cx |] eqn:Hcx; [| discriminate].
    destruct (Hsz ctx cx Hcx) as [Hlen1 Hlen2].
    destruct (array_get (ccmaes cx) id) as [[d |] |] eqn:Hget; [| | discriminate].
    { injection H as <- <- <-. auto. }
    pose proof (alloc_aead_balance id e Hprov) as Hbal.
    destruct (alloc_aead E id e) as [h evs0] eqn:Hal. simpl in Hbal.
    set (cx' := mk_ctx (desc cx) (array_set (ccmaes cx) id h)) in *.
    assert (Hs' : s' = set_ctxs (<[ctx := cx']> (ctxs s)) s
                  ∧ evs = evs0 ++ [EvAllocAead id h])
      by (destruct h; split; congruence).
    destruct Hs' as [-> ->]. clear H.
    pose proof (cached_update s ctx cx cx' Hcx) as Hupd.
    assert (Hh : ctx_handles E cx'
                 = (ctx_handles E cx + match h with Some _ => 1 | None => 0 end)%nat).
    { unfold ctx_handles, cx'. simpl.
      rewrite (filled_array_set _ _ _ _ Hlen2 Hget). lia. }
    split.
    + apply map_Forall_insert_2; [| exact Hsz]. unfold ctx_sized, cx', array_set. simpl.
      rewrite length_insert. auto.
    + rewrite transforms_given_app, transforms_freed_app.
      unfold transforms_given at 2, transforms_freed at 2. simpl. lia.
Qed.

Lemma lookup_step_balance (f : family) (id : Z) (e : reply) (s s' : kstate)
    (k k' : ctx_find_pc) (evs : list event) :
  reply_ok e s = true → ctxs_sized E s →
  family_find E ncpus f id e s k = Next (s', k', evs) →
  ctxs_sized E s'
  ∧ (transforms_given evs + cached_handles E s
     = transforms_freed evs + cached_handles E s')%nat.
Proof.
  intros Hok Hsz H. destruct k as [| kf | kr |].
  - assert (s' = s ∧ evs = []) as [-> ->].
    { destruct f; simpl in H;
        match type of H with context [if ?b then _ else _] => destruct b end;
        injection H as <- <- <-; auto. }
    auto.
  - assert (Hkf : (∃ c0, kf = FindRet c0) ∨ ∀ c0, kf ≠ FindRet c0)
      by (destruct kf; eauto; right; discriminate).
    destruct Hkf as [[c0 ->] | Hnot].
    + exact (slot_step_balance f id e s s' c0 k' evs Hok Hsz H).
    + assert (Hin : in_find (cifsd_find_crypto_ctx E ncpus e s kf) = Next (s', k', evs)).
      { destruct f, kf; try exact H; exfalso; exact (Hnot _ eq_refl). }
      destruct (cifsd_find_crypto_ctx E ncpus e s kf) as [[[s1 k1] evs1] | | |] eqn:Hf;
        try discriminate.
      simpl in Hin. injection Hin as <- <- <-.
      destruct (find_step_balance e s s1 kf k1 evs1 Hok Hsz Hf) as (? & -> & -> & ->).
      auto.
  - assert (Hkr : kr = RelRet ∨ kr ≠ RelRet)
      by (destruct kr; auto; right; discriminate).
    destruct Hkr as [-> | Hnot].
    + assert (s' = s ∧ evs = []) as [-> ->]
        by (destruct f; simpl in H; injection H as <- <- <-; auto).
      auto.
    + assert (Hin : in_release (cifsd_release_crypto_ctx E ncpus s kr) = Next (s', k', evs)).
      { destruct f, kr; try exact H; contradiction. }
      destruct (cifsd_release_crypto_ctx E ncpus s kr) as [[[s1 k1] evs1] | | |] eqn:Hr;
        try discriminate.
      simpl in Hin. injection Hin as <- <- <-.
      destruct (release_step_balance s s1 kr k1 evs1 Hsz Hr) as (? & -> & ->). auto.
  - destruct f; discriminate.
Qed.

Lemma task_step_balance (e : reply) (s s' : kstate) (t t' : task) (evs : list event) :
  reply_ok e s = true → ctxs_sized E s →
  task_step E ncpus e s t = Next (s', t', evs) →
  ctxs_sized E s'
  ∧ (transforms_given evs + cached_handles E s
     = transforms_freed evs + cached_handles E s')%nat.
Proof.
  intros Hok Hsz H. destruct t as [k | k | id k | id k]; simpl in H.
  - destruct (cifsd_find_crypto_ctx E ncpus e s k) as [[[s1 k1] evs1] | | |] eqn:Hf;
      try discriminate.
    injection H as <- <- <-.
    destruct (find_step_balance e s s1 k k1 evs1 Hok Hsz Hf) as (? & -> & -> & ->). auto.
  - destruct (cifsd_release_crypto_ctx E ncpus s k) as [[[s1 k1] evs1] | | |] eqn:Hr;
      try discriminate.
    injection H as <- <- <-.
    destruct (release_step_balance s s1 k k1 evs1 Hsz Hr) as (? & -> & ->). auto.
  - destruct (____crypto_shash_ctx_find E ncpus id e s k) as [[[s1 k1] evs1] | | |] eqn:Hl;
      try discriminate.
    injection H as <- <- <-. exact (lookup_step_balance Shash id e s s1 k k1 evs1 Hok Hsz Hl).
  - destruct (____crypto_aead_ctx_find E ncpus id e s k) as [[[s1 k1] evs1] | | |] eqn:Hl;
      try discriminate.
    injection H as <- <- <-. exact (lookup_step_balance Aead id e s s1 k k1 evs1 Hok Hsz Hl).
Qed.

Lemma sys_step_balanced (a : action) (sy sy' : system) :
  sys_step E ncpus a sy = Some sy' → sys_balanced E sy → sys_balanced E sy'.
Proof.
  intros Hstep [Hsz Hbal]. unfold sys_balanced.
  destruct a as [| ctx | id | id | i e]; simpl in Hstep.
  - injection Hstep as <-. auto.
  - destruct (ctx =? NULL); [injection Hstep as <-; auto |].
    destruct (take_out ctx (out sy)); [| discriminate]. injection Hstep as <-. auto.
  - injection Hstep as <-. auto.
  - injection Hstep as <-. auto.
  - destruct (reply_ok e (kern sy)) eqn:Hok; [| discriminate].
    destruct (tasks sy !! i) as [t |]; [| discriminate].
    destruct (task_step E ncpus e (kern sy) t) as [[[s1 t1] evs1] | | |] eqn:Hts;
      try discriminate.
    injection Hstep as <-. simpl.
    destruct (task_step_balance e (kern sy) s1 t t1 evs1 Hok Hsz Hts) as [Hsz1 Hb1].
    split; [exact Hsz1 |].
    rewrite transforms_given_app, transforms_freed_app. lia.
Qed.

Lemma run_balanced (acts : list action) (sy sy' : system) :
  run E ncpus acts sy = Some sy' → sys_balanced E sy → sys_balanced E sy'.
Proof.
  revert sy. induction acts as [| a acts IH]; intros sy; simpl.
  - intros [= <-]. auto.
  - destruct (sys_step E ncpus a sy) as [sy1 |] eqn:Hstep; [| discriminate].
    intros Hrun Hb. apply (IH sy1 Hrun). exact (sys_step_balanced a sy sy1 Hstep Hb).
Qed.

Lemma init_balanced (e : reply) (sy : system) : init E e = Some sy → sys_balanced E sy.
Proof.
  unfold init, cifsd_crypto_create, ctx_alloc. simpl.
  destruct (reply_ok e boot); [| discriminate].
  destruct (ctx_alloc_ret e =? NULL) eqn:Hz; simpl.
  - intros [=].
  - rewrite Hz. simpl. intros [= <-]. destruct cifsd_alloc_ctx_empty as [H0 Hsized].
    split; simpl.
    + apply map_Forall_insert_2; [exact Hsized | apply map_Forall_empty].
    + unfold cached_handles. simpl.
      rewrite (map_fold_insert_L (λ _ cx n, (ctx_handles E cx + n)%nat));
        [| intros; lia | apply lookup_empty].
      rewrite map_fold_empty, H0. reflexivity.
Qed.

(** X13: no transform is lost.  In every reachable state the number of
    transforms the provider has given so far is the number it has taken
    back so far plus the number of populated slots of the live
    contexts; and the arrays of every live context have their declared
    lengths, so every handle is in a slot that [ctx_free] visits. *)
Theorem transforms_balance (sy : system) :
  reachable E ncpus sy →
  transforms_given (trace sy)
  = (transforms_freed (trace sy) + cached_handles E (kern sy))%nat
  ∧ ∀ c cx, ctxs (kern sy) !! c = Some cx → ctx_sized E cx.
Proof.
  intros (e0 & acts & sy0 & Hinit & Hrun).
  destruct (run_balanced acts sy0 sy Hrun (init_balanced e0 sy0 Hinit)) as [Hsz Hbal].
  split; [exact Hbal | exact Hsz].
Qed.

(** *** No step without a defined behaviour *)

Lemma task_step_entered (e : reply) (s s' : kstate) (t t' : task) (evs : list event) :
  task_entered E t → task_step E ncpus e s t = Next (s', t', evs) → task_entered E t'.
Proof.
  intros Hent H. destruct t as [k | k | id k | id k]; simpl in H.
  - destruct (cifsd_find_crypto_ctx E ncpus e s k) as [[[s1 k1] evs1] | | |];
      try discriminate. injection H as <- <- <-. exact I.
  - destruct (cifsd_release_crypto_ctx E ncpus s k) as [[[s1 k1] evs1] | | |];
      try discriminate. injection H as <- <- <-. exact I.
  - destruct (____crypto_shash_ctx_find E ncpus id e s k) as [[[s1 k1] evs1] | | |] eqn:Hl;
      try discriminate. injection H as <- <- <-.
    destruct k as [| kf | kr |]; simpl in *.
    + destruct (Z.geb_spec id (CRYPTO_SHASH_MAX E)); injection Hl as <- <- <-; simpl; auto.
    + destruct k1; auto.
    + destruct k1; auto.
    + discriminate.
  - destruct (____crypto_aead_ctx_find E ncpus id e s k) as [[[s1 k1] evs1] | | |] eqn:Hl;
      try discriminate. injection H as <- <- <-.
    destruct k as [| kf | kr |]; simpl in *.
    + destruct (Z.geb_spec id (CRYPTO_AEAD_MAX E)); injection Hl as <- <- <-; simpl; auto.
    + destruct k1; auto.
    + destruct k1; auto.
    + discriminate.
Qed.

Lemma sys_step_entered (a : action) (sy sy' : system) :
  sys_step E ncpus a sy = Some sy' →
  Forall (task_entered E) (tasks sy) → Forall (task_entered E) (tasks sy').
Proof.
  intros Hstep Hent.
  assert (Hspawn : ∀ t, task_entered E t → Forall (task_entered E) (tasks sy ++ [t])).
  { intros t Ht. apply Forall_app. split; [exact Hent | apply Forall_singleton; exact Ht]. }
  destruct a as [| ctx | id | id | i e]; simpl in Hstep.
  - injection Hstep as <-. apply Hspawn. exact I.
  - destruct (ctx =? NULL); [injection Hstep as <-; apply Hspawn; exact I |].
    destruct (take_out ctx (out sy)); [| discriminate].
    injection Hstep as <-. apply Hspawn. exact I.
  - injection Hstep as <-. apply Hspawn. exact I.
  - injection Hstep as <-. apply Hspawn. exact I.
  - destruct (reply_ok e (kern sy)); [| discriminate].
    destruct (tasks sy !! i) as [t |] eqn:Ht; [| discriminate].
    destruct (task_step E ncpus e (kern sy) t) as [[[s1 t1] evs1] | | |] eqn:Hts;
      try discriminate.
    injection Hstep as <-. simpl. apply Forall_insert; [exact Hent |].
    apply (task_step_entered e (kern sy) s1 t t1 evs1); [| exact Hts].
    rewrite Forall_forall in Hent. apply Hent. eapply list_elem_of_lookup_2. exact Ht.
Qed.

Lemma reachable_entered (sy : system) :
  reachable E ncpus sy → Forall (task_entered E) (tasks sy).
Proof.
  intros (e0 & acts & sy0 & Hinit & Hrun).
  assert (H0 : Forall (task_entered E) (tasks sy0)).
  { unfold init in Hinit. destruct (reply_ok e0 boot); [| discriminate].
    destruct (cifsd_crypto_create E e0 boot) as [[ret s0] evs0].
    destruct (ret =? 0); [| discriminate]. injection Hinit as <-. constructor. }
  clear Hinit. revert sy0 Hrun H0.
  induction acts as [| a acts IH]; intros sy0; simpl.
  - intros [= <-]. auto.
  - destruct (sys_step E ncpus a sy0) as [sy1 |] eqn:Hstep; [| discriminate].
    intros Hrun H0. apply (IH sy1 Hrun). exact (sys_step_entered a sy0 sy1 Hstep H0).
Qed.

Lemma sum_list_with_lookup (g : task → nat) (l : list task) (i : nat) (t : task) :
  l !! i = Some t → (g t <= sum_list_with g l)%nat.
Proof.
  revert i. induction l as [| x l IH]; intros [| i] Hi; simpl in *; try discriminate.
  - injection Hi as ->. lia.
  - specialize (IH i Hi). lia.
Qed.

(** What a task holds is live. *)
Lemma held_is_live (sy : system) (i : nat) (t : task) (c : Z) :
  sys_owned sy → tasks sy !! i = Some t → c ∈ holds t →
  is_Some (ctxs (kern sy) !! c).
Proof.
  intros [Hocc _] Ht Hin. apply occ_elem_of in Hin. specialize (Hocc c).
  pose proof (sum_list_with_lookup (λ t, occ c (holds t)) (tasks sy) i t Ht) as Hle.
  simpl in Hle. apply live_is_Some. unfold live in *.
  destruct (ctxs (kern sy) !! c); [reflexivity | lia].
Qed.

Lemma find_no_fault (e : reply) (s : kstate) (k : find_pc) :
  cifsd_find_crypto_ctx E ncpus e s k ≠ Fault.
Proof.
  destruct k; simpl; try discriminate.
  - destruct (idle s); [destruct (avail s >? ncpus) |]; discriminate.
  - destruct (idle s); discriminate.
  - unfold ctx_alloc. destruct (ctx_alloc_ret e =? NULL) eqn:Hz; simpl; [discriminate |].
    rewrite Hz. discriminate.
Qed.

Lemma release_fault (s : kstate) (k : release_pc) :
  cifsd_release_crypto_ctx E ncpus s k = Fault →
  ∃ c, k = RelFree c ∧ ctxs s !! c = None.
Proof.
  destruct k; simpl; try discriminate.
  - destruct (ctx =? NULL); [| destruct (avail s <=? ncpus)]; discriminate.
  - unfold ctx_free. destruct (ctxs s !! ctx) eqn:Hc; [discriminate | eauto].
Qed.

Lemma slot_no_fault (f : family) (id : Z) (e : reply) (s : kstate) (c : Z)
    (cx : cifsd_crypto_ctx) :
  ctxs s !! c = Some cx → ctx_sized E cx →
  0 <= id < family_max E f →
  (f = Shash → is_Some (shash_name E id)) →
  provider_ok e →
  family_find E ncpus f id e s (CfFind (FindRet c)) ≠ Fault.
Proof.
  intros Hcx [Hlen1 Hlen2] Hid Hname Hprov.
  assert (Hget : ∀ A (a : list A), length a = Z.to_nat (family_max E f) →
                   is_Some (array_get a id)).
  { intros A a Hlen. unfold array_get. destruct (Z.ltb_spec id 0); [lia |].
    apply lookup_lt_is_Some. lia. }
  destruct f; simpl in *.
  - unfold shash_slot. rewrite Hcx.
    destruct (Hget _ (desc cx) Hlen1) as [[d |] ->]; [discriminate |].
    unfold alloc_shash_desc. destruct (Hname eq_refl) as [n ->]. simpl.
    destruct (IS_ERR (crypto_alloc_ret e)) eqn:Herr; [discriminate |].
    destruct (crypto_alloc_ret e =? NULL) eqn:Hz.
    + exfalso. apply Z.eqb_eq in Hz. destruct Hprov as [? | ?]; [congruence |].
      unfold NULL in Hz. lia.
    + destruct (kzalloc_ret e =? NULL); discriminate.
  - unfold aead_slot. rewrite Hcx.
    destruct (Hget _ (ccmaes cx) Hlen2) as [[d |] ->]; [discriminate |].
    destruct (alloc_aead E id e) as [[h |] evs]; discriminate.
Qed.

(** X14: in a reachable state every step of every call has a defined
    behaviour, for identifiers that index the arrays and that the
    Factory has a case for: no call frees a context twice or after
    another call freed it, none looks into a context that is not live
    or outside of its slot arrays. *)
Theorem reachable_steps_are_defined (sy : system) (i : nat) (t : task) (e : reply) :
  reachable E ncpus sy →
  tasks sy !! i = Some t →
  reply_ok e (kern sy) = true →
  task_valid_id E t →
  task_step E ncpus e (kern sy) t ≠ Fault.
Proof.
  intros Hreach Ht Hok Hvalid.
  destruct (reachable_owned sy Hreach) as [Hown _].
  pose proof (reachable_entered sy Hreach) as Hent.
  rewrite Forall_forall in Hent.
  assert (Hent_t : task_entered E t)
    by (apply Hent; eapply list_elem_of_lookup_2; exact Ht).
  assert (Hsz : ctxs_sized E (kern sy)).
  { destruct Hreach as (e0 & acts & sy0 & Hinit & Hrun).
    exact (proj1 (run_balanced acts sy0 sy Hrun (init_balanced e0 sy0 Hinit))). }
  pose proof (reply_ok_provider e (kern sy) Hok) as Hprov.
  assert (Hheld : ∀ c, c ∈ holds t → is_Some (ctxs (kern sy) !! c))
    by (intros c; apply (held_is_live sy i t c Hown Ht)).
  assert (Hlookup : ∀ f id k, t = lookup_task f id k →
            0 <= id → (f = Shash → is_Some (shash_name E id)) →
            (match k with CfFind _ | CfRelease _ => id < family_max E f | _ => True end) →
            family_find E ncpus f id e (kern sy) k ≠ Fault).
  { intros f id k -> Hid Hname Hlt.
    destruct k as [| kf | kr |].
    - destruct f; simpl;
        match goal with |- context [if ?b then _ else _] => destruct b end; discriminate.
    - assert (Hkf : (∃ c0, kf = FindRet c0) ∨ ∀ c0, kf ≠ FindRet c0)
        by (destruct kf; eauto; right; discriminate).
      destruct Hkf as [[c0 ->] | Hnot].
      + destruct (Hheld c0) as [cx Hcx]; [destruct f; left |].
        apply (slot_no_fault f id e (kern sy) c0 cx Hcx (Hsz c0 cx Hcx)); auto.
      + pose proof (find_no_fault e (kern sy) kf) as Hnf.
        assert (Heq : family_find E ncpus f id e (kern sy) (CfFind kf)
                      = in_find (cifsd_find_crypto_ctx E ncpus e (kern sy) kf)).
        { destruct f, kf; try reflexivity; exfalso; exact (Hnot _ eq_refl). }
        rewrite Heq.
        destruct (cifsd_find_crypto_ctx E ncpus e (kern sy) kf) as [[[? ?] ?] | | |];
          simpl; congruence.
    - assert (Hkr : kr = RelRet ∨ kr ≠ RelRet)
        by (destruct kr; auto; right; discriminate).
      destruct Hkr as [-> | Hnot]; [destruct f; discriminate |].
      assert (Heq : family_find E ncpus f id e (kern sy) (CfRelease kr)
                    = in_release (cifsd_release_crypto_ctx E ncpus (kern sy) kr)).
      { destruct f, kr; try reflexivity; contradiction. }
      rewrite Heq.
      destruct (cifsd_release_crypto_ctx E ncpus (kern sy) kr) as [[[? ?] ?] | | |] eqn:Hr;
        simpl; try discriminate.
      exfalso. apply release_fault in Hr as (c & -> & Hdead).
      destruct (Hheld c) as [cx Hcx]; [destruct f; left |]. congruence.
    - destruct f; discriminate. }
  destruct t as [k | k | id k | id k]; simpl.
  - pose proof (find_no_fault e (kern sy) k) as Hnf.
    destruct (cifsd_find_crypto_ctx E ncpus e (kern sy) k) as [[[? ?] ?] | | |];
      congruence.
  - destruct (cifsd_release_crypto_ctx E ncpus (kern sy) k) as [[[? ?] ?] | | |] eqn:Hr;
      try discriminate.
    exfalso. apply release_fault in Hr as (c & -> & Hdead).
    destruct (Hheld c) as [cx Hcx]; [left |]. congruence.
  - destruct Hvalid as [Hid Hname].
    pose proof (Hlookup Shash id k eq_refl Hid (λ _, Hname)) as Hnf.
    destruct (____crypto_shash_ctx_find E ncpus id e (kern sy) k) as [[[? ?] ?] | | |] eqn:Hl;
      try discriminate.
    exfalso. apply Hnf; [destruct k; simpl in *; auto | exact Hl].
  - pose proof (Hlookup Aead id k eq_refl Hvalid ltac:(discriminate)) as Hnf.
    destruct (____crypto_aead_ctx_find E ncpus id e (kern sy) k) as [[[? ?] ?] | | |] eqn:Hl;
      try discriminate.
    exfalso. apply Hnf; [destruct k; simpl in *; auto | exact Hl].
Qed.

End Properties.

(** ** The properties on the sample values *)

Lemma find_takes_idle_member_witness :
  idle sample_pool = [100]
  ∧ ∃ s', cifsd_find_crypto_ctx sample_ids 1 no_memory sample_pool FindLock
          = Next (s', FindRet 100, [])
      ∧ idle s' = [] ∧ avail s' = 1.
Proof.
  split; [reflexivity |].
  destruct (find_takes_idle_member sample_ids 1 no_memory sample_pool 100 [] eq_refl)
    as (s' & Hstep & Hidle & Hav & _).
  exists s'. auto.
Defined.

Lemma find_grows_and_returns_new_witness :
  idle sample_drained = [] ∧ avail sample_drained <= 1
  ∧ ∃ s1, cifsd_find_crypto_ctx sample_ids 1 no_memory sample_drained FindLock
          = Next (s1, FindAlloc, [])
      ∧ avail s1 = 2
      ∧ ∃ s3, cifsd_find_crypto_ctx sample_ids 1 (answers 200 1 NULL) s1 FindAlloc
              = Next (s3, FindRet 200, [EvCtxAlloc 200])
          ∧ idle s3 = [].
Proof.
  split; [reflexivity |]. split; [vm_compute; discriminate |].
  destruct (find_grows_and_returns_new sample_ids 1 no_memory sample_drained eq_refl)
    as (s1 & Hstep & Hav & Hidle & Hctxs & Hnew);
    [vm_compute; split; [discriminate | reflexivity] | vm_compute; discriminate |].
  exists s1. split; [exact Hstep |]. split; [exact Hav |].
  destruct (Hnew (answers 200 1 NULL) s1) as (s3 & Hstep3 & _ & _ & Hidle3 & _).
  - discriminate.
  - unfold reply_ok. rewrite Hctxs. reflexivity.
  - exists s3. split; [exact Hstep3 |]. rewrite Hidle3. exact Hidle.
Defined.

Lemma release_pools_or_destroys_witness :
  counter_in_range sample_drained ∧ counter_in_range sample_cached_out
  ∧ (∃ s1, cifsd_release_crypto_ctx sample_ids 1 sample_drained (RelEntry 100)
           = Next (s1, RelWake, [])
       ∧ idle s1 = [100] ∧ avail s1 = 1)
  ∧ (∃ s1, cifsd_release_crypto_ctx sample_ids 1 sample_cached_out (RelEntry 100)
           = Next (s1, RelFree 100, [])
       ∧ avail s1 = 1
       ∧ ∃ s3 evs, cifsd_release_crypto_ctx sample_ids 1 s1 (RelFree 100)
                   = Next (s3, RelRet, evs)
           ∧ evs = [EvCryptoFreeShash 7; EvKfree 300; EvCryptoFreeAead 9; EvCtxFree 100]
           ∧ shash_frees evs = [7] ∧ kfrees evs = [300] ∧ aead_frees evs = [9]
           ∧ ctx_frees evs = [100]
           ∧ ctxs s3 !! 100 = None).
Proof.
  assert (Hr1 : counter_in_range sample_drained)
    by (vm_compute; split; [discriminate | reflexivity]).
  assert (Hr2 : counter_in_range sample_cached_out)
    by (vm_compute; split; [discriminate | reflexivity]).
  split; [exact Hr1 |]. split; [exact Hr2 |]. split.
  - destruct (release_pools_or_destroys sample_ids 1 sample_drained 100) as [Hpool _];
      [discriminate | exact Hr1 |].
    destruct Hpool as (s1 & Hstep & Hidle & Hav & _); [vm_compute; discriminate |].
    exists s1. auto.
  - destruct (release_pools_or_destroys sample_ids 1 sample_cached_out 100) as [_ Hfree];
      [discriminate | exact Hr2 |].
    destruct Hfree as (s1 & Hstep & _ & Hav & Hctxs & Hnext); [reflexivity |].
    exists s1. split; [exact Hstep |]. split; [exact Hav |].
    destruct (Hnext s1 sample_ctx)
      as (s3 & evs & Hstep3 & Ht & H1 & H2 & H3 & H4 & _ & Hctxs3 & _).
    + rewrite Hctxs. reflexivity.
    + exists s3, evs. split; [exact Hstep3 |]. split; [exact Ht |].
      split; [exact H1 |]. split; [exact H2 |]. split; [exact H3 |].
      split; [exact H4 |]. rewrite Hctxs3. apply lookup_delete_eq.
Defined.

Lemma out_of_range_is_local_witness :
  family_max sample_ids Shash <= 6 ∧ family_max sample_ids Aead <= 40
  ∧ family_find sample_ids 1 Shash 6 no_memory sample_pool CfEntry
    = Next (sample_pool, CfRet NULL, [])
  ∧ family_find sample_ids 1 Aead 40 no_memory sample_pool CfEntry
    = Next (sample_pool, CfRet NULL, []).
Proof.
  assert (H1 : family_max sample_ids Shash <= 6) by (vm_compute; discriminate).
  assert (H2 : family_max sample_ids Aead <= 40) by (vm_compute; discriminate).
  split; [exact H1 |]. split; [exact H2 |]. split.
  - exact (proj1 (out_of_range_is_local sample_ids 1 Shash 6 no_memory sample_pool H1)).
  - exact (proj1 (out_of_range_is_local sample_ids 1 Aead 40 no_memory sample_pool H2)).
Defined.

Lemma slot_is_cached_witness :
  ∃ s1 evs1,
    family_find sample_ids 1 Shash 3 (answers NULL 7 300) sample_drained
      (CfFind (FindRet 100)) = Next (s1, CfRet 100, evs1)
    ∧ slot Shash s1 100 3 = Some (Some (HShash (mk_shash 300 7)))
    ∧ family_find sample_ids 1 Shash 3 (answers NULL 8 400) s1
        (CfFind (FindRet 100)) = Next (s1, CfRet 100, [])
    ∧ factory_calls (evs1 ++ []) = 1%nat.
Proof.
  apply (slot_is_cached sample_ids 1 Shash 3 (answers NULL 7 300) (answers NULL 8 400)
           sample_drained 100 (HShash (mk_shash 300 7))).
  - simpl. lia.
  - reflexivity.
  - reflexivity.
Defined.

Lemma failed_lookup_releases_itself_witness :
  ∃ s1 evs1,
    family_find sample_ids 1 Shash 3 no_algorithm sample_drained (CfFind (FindRet 100))
    = Next (s1, CfRelease (RelEntry 100), evs1)
    ∧ slot Shash s1 100 3 = Some None
    ∧ factory_calls evs1 = 1%nat.
Proof.
  destruct (failed_lookup_releases_itself sample_ids 1 Shash 3 no_algorithm
              sample_drained 100 eq_refl eq_refl)
    as (s1 & evs1 & Hstep & Hslot & _ & Hcalls & _).
  exists s1, evs1. auto.
Defined.

(** C5 as the spec words it does not hold: after a lookup that failed
    because the provider lacks the algorithm, the caller holds no context
    (the result is [NULL] and nothing is out), the context is already
    back in the idle set, and a release of it by the caller is not a
    step the caller can take. *)
Lemma failed_lookup_leaves_nothing_to_release :
  ∃ sy0 sy,
    init sample_ids seeded = Some sy0
    ∧ run sample_ids 1 failed_lookup_schedule sy0 = Some sy
    ∧ tasks sy = [TShash 3 (CfRet NULL)]
    ∧ out sy = []
    ∧ idle (kern sy) = [100]
    ∧ slot Shash (kern sy) 100 3 = Some None
    ∧ sys_step sample_ids 1 (CallRelease 100) sy = None.
Proof.
  eexists _, _. split; [vm_compute; reflexivity |].
  split; [vm_compute; reflexivity |].
  repeat split.
Qed.

Lemma destroy_keeps_counter_witness :
  idle_wf sample_cached ∧ counter_in_range sample_cached
  ∧ ∃ s' evs, cifsd_crypto_destroy sample_ids sample_cached = Some (s', evs)
      ∧ idle s' = [] ∧ avail s' = 1 ∧ ctx_frees evs = [100]
      ∧ evs = [EvCryptoFreeShash 7; EvKfree 300; EvCryptoFreeAead 9; EvCtxFree 100]
      ∧ shash_frees evs = [7] ∧ kfrees evs = [300] ∧ aead_frees evs = [9]
      ∧ cifsd_release_crypto_ctx sample_ids 1 s' (RelEntry 200)
        = Next (set_idle [200] s', RelWake, []).
Proof.
  assert (Hwf : idle_wf sample_cached).
  { split.
    - apply NoDup_singleton.
    - intros ctx Hin. apply list_elem_of_singleton in Hin as ->. vm_compute. eauto. }
  assert (Hr : counter_in_range sample_cached)
    by (vm_compute; split; [discriminate | reflexivity]).
  split; [exact Hwf |]. split; [exact Hr |].
  destruct (destroy_keeps_counter sample_ids 1 sample_cached Hwf Hr)
    as (s' & evs & Hd & Hidle & Hav & _ & _ & Hev & _ & Ht & H1 & H2 & H3 & Hrel).
  exists s', evs. repeat split; try assumption.
  apply (Hrel 200). discriminate.
Defined.


Lemma counter_at_most_bound_plus_one_witness :
  ∃ sy, reachable sample_ids 1 sy ∧ avail (kern sy) <= 1 + 1.
Proof.
  assert (Hr : ∃ sy, reachable sample_ids 1 sy ∧ avail (kern sy) = 2).
  { eexists. split.
    - exists seeded, growth_schedule. eexists. split; vm_compute; reflexivity.
    - reflexivity. }
  destruct Hr as (sy & Hreach & _). exists sy. split; [exact Hreach |].
  apply (counter_at_most_bound_plus_one sample_ids 1 sy); [lia | exact Hreach].
Defined.

(** C3 as the spec words it does not hold: with the bound at 1, after
    one caller has taken the seed context a second caller is
    constructing a context while the counter is 2. *)
Lemma counter_exceeds_bound_while_creating :
  ∃ sy0 sy,
    init sample_ids seeded = Some sy0
    ∧ run sample_ids 1 growth_schedule sy0 = Some sy
    ∧ tasks sy = [TFind (FindRet 100); TFind FindAlloc]
    ∧ creating (TFind FindAlloc) = true
    ∧ avail (kern sy) = 2
    ∧ 1 < avail (kern sy).
Proof.
  eexists _, _. split; [vm_compute; reflexivity |].
  split; [vm_compute; reflexivity |].
  repeat split.
Qed.

(** ** The further properties on the sample values *)

Lemma sample_system_reachable : reachable sample_ids 1 sample_system.
Proof.
  exists seeded, busy_schedule. eexists. split; vm_compute; reflexivity.
Qed.

Lemma sample_system_shape :
  idle (kern sample_system) = [] ∧ out sample_system = [100]
  ∧ avail (kern sample_system) = 1
  ∧ tasks sample_system
    = [TShash 3 (CfRet 100); TFind (FindRet 200); TRelease (RelFree 200)].
Proof. vm_compute. auto. Qed.

Lemma lookup_returns_populated_witness :
  ∃ s' evs h,
    family_find sample_ids 1 Shash 3 (answers NULL 7 300) sample_drained
      (CfFind (FindRet 100)) = Next (s', CfRet 100, evs)
    ∧ slot Shash s' 100 3 = Some (Some h).
Proof.
  assert (Hstep : ∃ s' evs,
            family_find sample_ids 1 Shash 3 (answers NULL 7 300) sample_drained
              (CfFind (FindRet 100)) = Next (s', CfRet 100, evs))
    by (eexists _, _; vm_compute; reflexivity).
  destruct Hstep as (s' & evs & Hstep).
  destruct (lookup_returns_populated sample_ids 1 Shash 3 (answers NULL 7 300)
              sample_drained s' (CfFind (FindRet 100)) 100 evs Hstep) as [h Hh];
    [discriminate |].
  exists s', evs, h. auto.
Defined.

Lemma slots_only_filled_witness :
  slot Shash sample_drained 100 3 = Some None
  ∧ (slot Shash sample_pool 100 3 = Some None
     ∨ (@None handle = None
        ∧ TRelease (RelEntry 100) = lookup_task Shash 3 (CfFind (FindRet 100))
        ∧ ∃ h, slot Shash sample_pool 100 3 = Some h)
     ∨ (ctxs sample_pool !! 100 = None ∧ 100 ∈ holds (TRelease (RelEntry 100)))).
Proof.
  split; [reflexivity |].
  apply (slots_only_filled sample_ids 1 no_memory sample_drained sample_pool
           (TRelease (RelEntry 100)) (TRelease RelWake) [] Shash 100 3 None);
    reflexivity.
Defined.

Lemma release_then_find_witness :
  counter_in_range sample_drained
  ∧ ∃ s1, cifsd_release_crypto_ctx sample_ids 1 sample_drained (RelEntry 100)
          = Next (s1, RelWake, [])
      ∧ cifsd_release_crypto_ctx sample_ids 1 s1 RelWake = Next (s1, RelRet, [EvWakeUp])
      ∧ cifsd_find_crypto_ctx sample_ids 1 no_memory s1 FindLock
        = Next (sample_drained, FindRet 100, []).
Proof.
  assert (Hr : counter_in_range sample_drained)
    by (vm_compute; split; [discriminate | reflexivity]).
  split; [exact Hr |].
  apply (release_then_find sample_ids 1 no_memory sample_drained 100);
    [discriminate | exact Hr | vm_compute; discriminate].
Defined.

Lemma find_then_release_witness :
  counter_in_range sample_cached ∧ counter_in_range sample_cached_over
  ∧ (∃ s1, cifsd_find_crypto_ctx sample_ids 1 no_memory sample_cached FindLock
           = Next (s1, FindRet 100, [])
       ∧ cifsd_release_crypto_ctx sample_ids 1 s1 (RelEntry 100)
         = Next (sample_cached, RelWake, []))
  ∧ (∃ s1 s2 s3 evs,
       cifsd_find_crypto_ctx sample_ids 1 no_memory sample_cached_over FindLock
       = Next (s1, FindRet 100, [])
       ∧ cifsd_release_crypto_ctx sample_ids 1 s1 (RelEntry 100)
         = Next (s2, RelFree 100, [])
       ∧ cifsd_release_crypto_ctx sample_ids 1 s2 (RelFree 100) = Next (s3, RelRet, evs)
       ∧ idle s3 = [] ∧ avail s3 = 1 ∧ ctxs s3 !! 100 = None
       ∧ ctx_frees evs = [100]
       ∧ evs = [EvCryptoFreeShash 7; EvKfree 300; EvCryptoFreeAead 9; EvCtxFree 100]
       ∧ shash_frees evs = [7] ∧ kfrees evs = [300] ∧ aead_frees evs = [9]).
Proof.
  assert (Hr1 : counter_in_range sample_cached)
    by (vm_compute; split; [discriminate | reflexivity]).
  assert (Hr2 : counter_in_range sample_cached_over)
    by (vm_compute; split; [discriminate | reflexivity]).
  split; [exact Hr1 |]. split; [exact Hr2 |]. split.
  - destruct (find_then_release sample_ids 1 no_memory sample_cached 100 [] sample_ctx
                eq_refl) as (s1 & Hfind & Hpool & _);
      [discriminate | reflexivity | exact Hr1 |].
    exists s1. split; [exact Hfind |]. apply Hpool. vm_compute. discriminate.
  - destruct (find_then_release sample_ids 1 no_memory sample_cached_over 100 [] sample_ctx
                eq_refl) as (s1 & Hfind & _ & Hfree);
      [discriminate | reflexivity | exact Hr2 |].
    destruct Hfree
      as (s2 & s3 & evs & He & Hf & Hidle & Hav & Hctxs & H0 & Ht & H1 & H2 & H3);
      [reflexivity |].
    exists s1, s2, s3, evs. repeat split; try assumption.
    rewrite Hctxs. apply lookup_delete_eq.
Defined.

Lemma waiter_needs_pooling_release_witness :
  counter_in_range sample_drained ∧ counter_in_range sample_cached_out
  ∧ cifsd_find_crypto_ctx sample_ids 1 no_memory sample_drained FindWait = Blocked
  ∧ (∃ s1, cifsd_release_crypto_ctx sample_ids 1 sample_drained (RelEntry 100)
           = Next (s1, RelWake, [])
       ∧ cifsd_find_crypto_ctx sample_ids 1 no_memory s1 FindWait
         = Next (s1, FindLock, [])
       ∧ cifsd_find_crypto_ctx sample_ids 1 no_memory s1 FindLock
         = Next (sample_drained, FindRet 100, []))
  ∧ (∃ s1 s2 evs,
       cifsd_release_crypto_ctx sample_ids 1 sample_cached_out (RelEntry 100)
       = Next (s1, RelFree 100, [])
       ∧ cifsd_release_crypto_ctx sample_ids 1 s1 (RelFree 100) = Next (s2, RelRet, evs)
       ∧ avail s2 = 1
       ∧ cifsd_find_crypto_ctx sample_ids 1 no_memory s1 FindWait = Blocked
       ∧ cifsd_find_crypto_ctx sample_ids 1 no_memory s2 FindWait = Blocked).
Proof.
  assert (Hr1 : counter_in_range sample_drained)
    by (vm_compute; split; [discriminate | reflexivity]).
  assert (Hr2 : counter_in_range sample_cached_out)
    by (vm_compute; split; [discriminate | reflexivity]).
  split; [exact Hr1 |]. split; [exact Hr2 |].
  destruct (waiter_needs_pooling_release sample_ids 1 no_memory sample_drained 100 eq_refl)
    as (Hblocked & Hpool & _); [discriminate | vm_compute; eauto | exact Hr1 |].
  split; [exact Hblocked |]. split.
  - apply Hpool. vm_compute. discriminate.
  - destruct (waiter_needs_pooling_release sample_ids 1 no_memory sample_cached_out 100
                eq_refl) as (_ & _ & Hfree); [discriminate | vm_compute; eauto | exact Hr2 |].
    apply Hfree. reflexivity.
Defined.

Lemma create_then_destroy_witness :
  ∃ s1 evs1 s2 evs2,
    cifsd_crypto_create sample_ids seeded boot = (0, s1, evs1)
    ∧ cifsd_crypto_destroy sample_ids s1 = Some (s2, evs2)
    ∧ ctxs s2 = ctxs boot ∧ idle s2 = [] ∧ avail s2 = 1
    ∧ ctx_frees evs2 = [ctx_alloc_ret seeded].
Proof.
  apply (create_then_destroy sample_ids seeded boot); [discriminate | reflexivity].
Defined.

Lemma exclusive_ownership_witness :
  NoDup (owners sample_system)
  ∧ ∀ c, c ∈ owners sample_system ↔ is_Some (ctxs (kern sample_system) !! c).
Proof.
  exact (exclusive_ownership sample_ids 1 sample_system sample_system_reachable).
Defined.

Lemma counter_counts_contexts_witness :
  avail (kern sample_system)
  = Z.of_nat (length (idle (kern sample_system)) + length (out sample_system)
              + sum_list_with counted (tasks sample_system))
  ∧ 0 <= avail (kern sample_system)
  ∧ Z.of_nat (length (idle (kern sample_system)) + length (out sample_system)) <= 1 + 1.
Proof.
  apply (counter_counts_contexts sample_ids 1 sample_system);
    [lia | exact sample_system_reachable].
Defined.

Lemma pooled_system_reachable : reachable sample_ids 1 pooled_system.
Proof.
  exists seeded, pooled_schedule. eexists. split; vm_compute; reflexivity.
Qed.

Lemma destroy_of_reachable_witness :
  idle (kern pooled_system) = [100]
  ∧ ∃ s' evs, cifsd_crypto_destroy sample_ids (kern pooled_system) = Some (s', evs)
      ∧ idle s' = [] ∧ avail s' = 1
      ∧ evs = [EvCryptoFreeShash 7; EvKfree 300; EvCtxFree 100]
      ∧ ctx_frees evs = [100] ∧ shash_frees evs = [7] ∧ kfrees evs = [300]
      ∧ aead_frees evs = []
      ∧ ∀ c, is_Some (ctxs s' !! c) ↔ c ∈ out pooled_system ++ in_tasks pooled_system.
Proof.
  split; [vm_compute; reflexivity |].
  destruct (destroy_of_reachable sample_ids 1 pooled_system pooled_system_reachable)
    as (s' & evs & Hd & Hidle & Hav & Hev & _ & Ht & H1 & H2 & H3 & Hlive).
  exists s', evs. split; [exact Hd |]. split; [exact Hidle |].
  split; [rewrite Hav; vm_compute; reflexivity |].
  split; [rewrite Ht; vm_compute; reflexivity |].
  split; [rewrite Hev; vm_compute; reflexivity |].
  split; [rewrite H1; vm_compute; reflexivity |].
  split; [rewrite H2; vm_compute; reflexivity |].
  split; [rewrite H3; vm_compute; reflexivity | exact Hlive].
Defined.

Lemma handle_survives_release_witness :
  ∃ s1 evs1 s2 s3,
    task_run sample_ids 1 [no_memory; no_memory; answers NULL 7 300] sample_pool
      (lookup_task Shash 3 CfEntry)
    = Next (s1, lookup_task Shash 3 (CfRet 100), evs1)
    ∧ factory_calls evs1 = 1%nat
    ∧ task_run sample_ids 1 [no_memory; no_memory] s1 (TRelease (RelEntry 100))
      = Next (s2, TRelease RelRet, [EvWakeUp])
    ∧ idle s2 = [100]
    ∧ task_run sample_ids 1 [no_memory; no_memory; no_algorithm] s2
        (lookup_task Shash 3 CfEntry)
      = Next (s3, lookup_task Shash 3 (CfRet 100), [])
    ∧ slot Shash s3 100 3 = Some (Some (HShash (mk_shash 300 7)))
    ∧ idle s3 = [] ∧ avail s3 = avail sample_pool.
Proof.
  apply (handle_survives_release sample_ids 1 Shash 3 no_memory no_memory
           (answers NULL 7 300) no_memory no_memory no_memory no_memory no_algorithm
           sample_pool 100 [] (HShash (mk_shash 300 7))).
  - simpl. lia.
  - reflexivity.
  - discriminate.
  - vm_compute. split; [discriminate | reflexivity].
  - vm_compute. discriminate.
  - reflexivity.
  - reflexivity.
Defined.


Lemma ctx_free_takes_all_witness :
  ∃ s' evs,
    ctx_free sample_ids 100 sample_cached = Some (s', evs)
    ∧ ctxs sample_cached !! 100 = Some sample_ctx
    ∧ evs = [EvCryptoFreeShash 7; EvKfree 300; EvCryptoFreeAead 9; EvCtxFree 100]
    ∧ shash_frees evs = [7] ∧ kfrees evs = [300] ∧ aead_frees evs = [9]
    ∧ transforms_freed evs = 2%nat
    ∧ ctx_frees evs = [100]
    ∧ ctxs s' = delete 100 (ctxs sample_cached).
Proof.
  assert (Hfree : ∃ s' evs, ctx_free sample_ids 100 sample_cached = Some (s', evs))
    by (eexists _, _; vm_compute; reflexivity).
  destruct Hfree as (s' & evs & Hfree).
  destruct (ctx_free_takes_all sample_ids 100 sample_cached s' evs Hfree)
    as (cx & Hcx & Ht & H1 & H2 & H3 & Hfr & _ & Hfrees & _ & _ & Hctxs).
  assert (Hcx' : cx = sample_ctx).
  { assert (H0 : ctxs sample_cached !! 100 = Some sample_ctx) by reflexivity.
    congruence. }
  subst cx. exists s', evs. repeat split; assumption.
Defined.

Lemma transforms_balance_witness :
  transforms_given (trace sample_system)
  = (transforms_freed (trace sample_system)
     + cached_handles sample_ids (kern sample_system))%nat
  ∧ ∀ c cx, ctxs (kern sample_system) !! c = Some cx → ctx_sized sample_ids cx.
Proof.
  exact (transforms_balance sample_ids 1 sample_system sample_system_reachable).
Defined.

Lemma reachable_steps_are_defined_witness :
  tasks sample_system !! 2%nat = Some (TRelease (RelFree 200))
  ∧ task_step sample_ids 1 no_memory (kern sample_system) (TRelease (RelFree 200)) ≠ Fault.
Proof.
  assert (Ht : tasks sample_system !! 2%nat = Some (TRelease (RelFree 200)))
    by (vm_compute; reflexivity).
  split; [exact Ht |].
  apply (reachable_steps_are_defined sample_ids 1 sample_system 2 (TRelease (RelFree 200))
           no_memory sample_system_reachable Ht); [vm_compute; reflexivity | exact I].
Defined.
